(** * GerapyAutoExtractor: the list extractor

    A shallow embedding of [gerapy_auto_extractor/extractors/list.py] and the
    properties of its four stages: candidate filter, tree cut, cluster scorer
    and title extractor.

    Conventions of the embedding.
    - A Python [int] is a [Z]; a Python [str] is a [string], one [ascii] per
      character, ordered character by character as Python orders strings.
    - A Python [float] is idealised as a real number; [npfloat] adds the one
      special value the code can meet, numpy's [nan] (the mean of an empty
      list).  Comparisons with [nan] are false, as in IEEE 754.  Where the
      rounding of binary64 arithmetic decides which cluster the scorer
      returns, the scorer is also given with its arithmetic as parameters
      (the definitions that end in [64]): a float is then the real number
      that the binary64 value denotes, and [np.mean], [np.log10] and the
      product are any functions with the stated properties of the rounded
      operations.
    - A [dict] is an association list in insertion order without duplicate
      keys; a [defaultdict(list)] is the same with [Dict.append_to].
    - A raised exception is the [Raise] branch of [result].
    - The calls to the logger and the [clusters_score] dictionary, which is
      only written for the logger, are left out; so is an anchor whose
      [text] is [None], which the data model excludes. *)

From Stdlib Require Import List String Ascii ZArith Bool Lia Permutation.
From Stdlib Require Import Sorting.Mergesort Sorting.Sorted.
From Stdlib Require Import Reals Lra.
Import ListNotations.

Set Implicit Arguments.

(** ** Exceptions *)

Inductive exception : Type :=
| KeyError (key : Z)        (* [d[key]] on a dict without [key] *)
| ValueError.               (* [max()] of an empty sequence *)

Inductive result (A : Type) : Type :=
| Return (a : A)
| Raise (e : exception).

Arguments Return {A} a.
Arguments Raise {A} e.

Definition bind {A B : Type} (m : result A) (k : A -> result B) : result B :=
  match m with
  | Return a => k a
  | Raise e => Raise e
  end.

Notation "x <- m ;; k" := (bind m (fun x => k))
  (at level 61, m at next level, right associativity).

(** ** Dictionaries in insertion order *)

Module Dict.
Section WithKey.
Variable K : Type.
Variable eqb : K -> K -> bool.
Variable V : Type.

Definition t := list (K * V).

Definition keys (d : t) : list K := map fst d.

Fixpoint get (d : t) (k : K) : option V :=
  match d with
  | [] => None
  | (k', v) :: d' => if eqb k' k then Some v else get d' k
  end.

(** [del d[k]]; the callers below only delete keys taken from [keys d]. *)
Fixpoint del (d : t) (k : K) : t :=
  match d with
  | [] => []
  | (k', v) :: d' => if eqb k' k then d' else (k', v) :: del d' k
  end.
End WithKey.

Section ListValued.
Variable K : Type.
Variable eqb : K -> K -> bool.
Variable A : Type.

(** [d[k].append(x)] on a [defaultdict(list)]: a missing key is inserted
    last, with the one-element list. *)
Fixpoint append_to (d : t K (list A)) (k : K) (x : A) : t K (list A) :=
  match d with
  | [] => [(k, [x])]
  | (k', l) :: d' =>
      if eqb k' k then (k', l ++ [x]) :: d' else (k', l) :: append_to d' k x
  end.
End ListValued.
End Dict.

(** ** Floats *)

Inductive npfloat : Type :=
| nan
| fin (x : R).

Definition float_gt (a b : npfloat) : bool :=
  match a, b with
  | fin x, fin y => if Rgt_dec x y then true else false
  | _, _ => false
  end.

Definition float_mul (a b : npfloat) : npfloat :=
  match a, b with
  | fin x, fin y => fin (x * y)
  | _, _ => nan
  end.

Definition Rsum (l : list R) : R := fold_right Rplus 0%R l.

(** [np.mean]: [nan] on the empty list. *)
Definition np_mean (l : list R) : npfloat :=
  match l with
  | [] => nan
  | _ :: _ => fin (Rsum l / INR (List.length l))
  end.

(** [np.log10], on the positive arguments the code applies it to. *)
Definition np_log10 (x : R) : R := (ln x / ln 10)%R.

(** ** Data model *)

Record AnchorDescendant : Type := {
  text : string;
  attrib : Dict.t string string;
  path : string
}.

Record Element : Type := {
  number_of_siblings : Z;
  parent_selector : string;
  a_descendants_group_text_min_length : Z;
  a_descendants_group_text_max_length : Z;
  similarity_with_siblings : R;
  a_descendants : list AnchorDescendant
}.

Record Item : Type := { title : string; url : string }.

Record ListExtractor : Type := {
  min_number : Z;
  min_length : Z;
  max_length : Z;
  similarity_threshold : R
}.

Definition LIST_MIN_NUMBER : Z := 5.
Definition LIST_MIN_LENGTH : Z := 8.
Definition LIST_MAX_LENGTH : Z := 35.
Definition SIMILARITY_THRESHOLD : R := (8 / 10)%R.

Definition list_extractor : ListExtractor :=
  {| min_number := LIST_MIN_NUMBER;
     min_length := LIST_MIN_LENGTH;
     max_length := LIST_MAX_LENGTH;
     similarity_threshold := SIMILARITY_THRESHOLD |}.

Definition avg_length (self : ListExtractor) : R :=
  ((IZR (min_length self) + IZR (max_length self)) / 2)%R.

(** ** The title-likelihood function *)

Definition sigma : R := 6%R.

Definition _probability_of_title_with_length
    (self : ListExtractor) (length : R) : R :=
  (exp (-1 * ((length - avg_length self) ^ 2) / (2 * (sigma ^ 2)))
   / (sqrt (2 * PI) * sigma))%R.

(** ** [sorted] on selectors *)

Module SelectorOrder <: Orders.TotalLeBool.
Definition t := string.
Definition leb := String.leb.
Definition leb_total
  : forall s1 s2, leb s1 s2 = true \/ leb s2 s1 = true :=
  String.leb_total.
End SelectorOrder.

Module SelectorSort := Sort SelectorOrder.

Definition sorted (l : list string) : list string := SelectorSort.sort l.

(** Python truthiness of a [str]. *)
Definition truthy (s : string) : bool := negb (s =? "")%string.

(** [last.startswith(selector)] *)
Definition startswith (s pre : string) : bool := String.prefix pre s.

(** ** Candidate filter: the first loop of [_build_clusters] *)

Definition Tree := Dict.t string (list Element).

Definition build_step (self : ListExtractor) (descendants_tree : Tree)
    (descendant : Element) : Tree :=
  if (number_of_siblings descendant + 1 <? min_number self)%Z
  then descendants_tree
  else if (a_descendants_group_text_min_length descendant >? max_length self)%Z
  then descendants_tree
  else if (a_descendants_group_text_max_length descendant <? min_length self)%Z
  then descendants_tree
  else if Rlt_dec (similarity_with_siblings descendant)
                  (similarity_threshold self)
  then descendants_tree
  else Dict.append_to String.eqb descendants_tree
         (parent_selector descendant) descendant.

Definition candidate_tree (self : ListExtractor) (descendants : list Element)
  : Tree :=
  fold_left (build_step self) descendants [].

(** ** Tree cut: the second loop of [_build_clusters] *)

Definition cut_step (st : Tree * option string) (selector : string)
  : Tree * option string :=
  let (descendants_tree, last_selector) := st in
  let descendants_tree' :=
    match last_selector with
    | Some last =>
        if truthy last && truthy selector && startswith last selector
        then Dict.del String.eqb descendants_tree selector
        else descendants_tree
    | None => descendants_tree
    end in
  (descendants_tree', Some selector).

Definition cut_tree (descendants_tree : Tree) : Tree :=
  let selectors := sorted (Dict.keys descendants_tree) in
  fst (fold_left cut_step (rev selectors) (descendants_tree, None)).

(** ** Cluster scorer *)

Definition Clusters := Dict.t Z (list Element).

(** The score expression of lines 106-108 on a mean [s] and a count [n]. *)
Definition score (s : R) (n : nat) : R := (s * np_log10 (INR (n + 1)))%R.

Definition clusters_score (cluster : list Element) : npfloat :=
  let avg_similarity_with_siblings :=
    np_mean (map similarity_with_siblings cluster) in
  let number_of_elements := List.length cluster in
  float_mul avg_similarity_with_siblings
            (fin (np_log10 (INR (number_of_elements + 1)))).

Definition choose_step (st : Z * npfloat) (item : Z * list Element)
  : Z * npfloat :=
  let (clusters_score_arg_max, clusters_score_max) := st in
  let (cluster_id, cluster) := item in
  if float_gt (clusters_score cluster) clusters_score_max
  then (cluster_id, clusters_score cluster)
  else (clusters_score_arg_max, clusters_score_max).

Definition clusters_score_arg_max (clusters : Clusters) : Z :=
  fst (fold_left choose_step clusters (0%Z, fin (-1))).

Definition _choose_best_cluster (clusters : Clusters)
  : result (list Element) :=
  let arg_max := clusters_score_arg_max clusters in
  match Dict.get Z.eqb clusters arg_max with
  | Some best_cluster => Return best_cluster
  | None => Raise (KeyError arg_max)
  end.

(** ** Title extractor *)

Definition vote (self : ListExtractor)
    (probabilities_of_title : Dict.t string (list R))
    (descendant : AnchorDescendant) : Dict.t string (list R) :=
  let probability_of_title :=
    _probability_of_title_with_length self
      (INR (String.length (text descendant))) in
  Dict.append_to String.eqb probabilities_of_title (path descendant)
    probability_of_title.

Definition probabilities_of_title (self : ListExtractor)
    (cluster : list Element) : Dict.t string (list R) :=
  fold_left
    (fun probs element => fold_left (vote self) (a_descendants element) probs)
    cluster [].

Definition probabilities_of_title_avg (self : ListExtractor)
    (cluster : list Element) : Dict.t string npfloat :=
  map (fun kv => (fst kv, np_mean (snd kv)))
      (probabilities_of_title self cluster).

(** [max(items, key=operator.itemgetter(1))]: the first item whose value is
    not exceeded by a later one; [ValueError] on no item. *)
Definition max_step (best item : string * npfloat) : string * npfloat :=
  if float_gt (snd item) (snd best) then item else best.

Definition max_by_value (items : list (string * npfloat))
  : result (string * npfloat) :=
  match items with
  | [] => Raise ValueError
  | first :: rest => Return (fold_left max_step rest first)
  end.

Definition best_path_of (self : ListExtractor) (cluster : list Element)
  : result string :=
  best <- max_by_value (probabilities_of_title_avg self cluster) ;;
  Return (fst best).

Definition emit (best_path : string) (result : list Item)
    (descendant : AnchorDescendant) : list Item :=
  if negb (path descendant =? best_path)%string then result
  else
    match Dict.get String.eqb (attrib descendant) "href"%string with
    | None => result
    | Some url =>
        if negb (truthy url) then result
        else
          let url := if startswith url "//"%string then ("http:" ++ url)%string
                     else url in
          result ++ [{| title := text descendant; url := url |}]
    end.

Definition extract_with (best_path : string) (cluster : list Element)
  : list Item :=
  fold_left
    (fun result element => fold_left (emit best_path) (a_descendants element)
                                     result)
    cluster [].

Definition _extract_from_cluster (self : ListExtractor)
    (cluster : list Element) : result (list Item) :=
  best_path <- best_path_of self cluster ;;
  Return (extract_with best_path cluster).

(** ** The pipeline

    The collaborators of [process] live in other modules of the package and
    are taken as parameters: the preprocessing pass, the enumeration of the
    decorated descendants of the body, and the clustering of the cut tree. *)

Section Pipeline.
Variable Html : Type.
Variable preprocess4list : Html -> Html.
Variable descendants_of_body : Html -> list Element.
Variable cluster_dict : Tree -> Clusters.

Definition _build_clusters (self : ListExtractor) (element : Html)
  : Clusters :=
  let descendants := descendants_of_body element in
  let descendants_tree := candidate_tree self descendants in
  cluster_dict (cut_tree descendants_tree).

Definition process (self : ListExtractor) (element : Html)
  : result (list Item) :=
  let element := preprocess4list element in
  let clusters := _build_clusters self element in
  best_cluster <- _choose_best_cluster clusters ;;
  _extract_from_cluster self best_cluster.
End Pipeline.

(** ** The scorer over binary64 arithmetic

    The scorer of lines 91-116 once more, with the three arithmetic
    operations it applies taken as parameters, so that what is proved of it
    holds of the rounded operations of numpy and of the exact ones alike:
    [mean] is [np.mean] on a list of floats, [log10] is [np.log10] on a
    positive [int], [mul] is the product of two floats. *)

Section Arithmetic64.
Variable mean : list R -> npfloat.
Variable log10 : nat -> R.
Variable mul : R -> R -> R.

Definition float_mul64 (a b : npfloat) : npfloat :=
  match a, b with
  | fin x, fin y => fin (mul x y)
  | _, _ => nan
  end.

Definition clusters_score64 (cluster : list Element) : npfloat :=
  let avg_similarity_with_siblings :=
    mean (map similarity_with_siblings cluster) in
  let number_of_elements := List.length cluster in
  float_mul64 avg_similarity_with_siblings
              (fin (log10 (number_of_elements + 1))).

Definition choose_step64 (st : Z * npfloat) (item : Z * list Element)
  : Z * npfloat :=
  let (clusters_score_arg_max, clusters_score_max) := st in
  let (cluster_id, cluster) := item in
  if float_gt (clusters_score64 cluster) clusters_score_max
  then (cluster_id, clusters_score64 cluster)
  else (clusters_score_arg_max, clusters_score_max).

Definition clusters_score_arg_max64 (clusters : Clusters) : Z :=
  fst (fold_left choose_step64 clusters (0%Z, fin (-1))).

Definition _choose_best_cluster64 (clusters : Clusters)
  : result (list Element) :=
  let arg_max := clusters_score_arg_max64 clusters in
  match Dict.get Z.eqb clusters arg_max with
  | Some best_cluster => Return best_cluster
  | None => Raise (KeyError arg_max)
  end.
End Arithmetic64.

(** [np.log10] on an [int], in exact arithmetic. *)
Definition exact_log10 (k : nat) : R := np_log10 (INR k).

(** ** Predicates of the specification *)

(** What the three tests of the filter ask of a node. *)
Definition qualifies (self : ListExtractor) (d : Element) : Prop :=
  (number_of_siblings d + 1 >= min_number self)%Z /\
  ~ ((a_descendants_group_text_min_length d > max_length self)%Z \/
     (a_descendants_group_text_max_length d < min_length self)%Z) /\
  (similarity_with_siblings d >= similarity_threshold self)%R.

(** [p] is a proper prefix of [q]: the test of the cut on two distinct
    selectors. *)
Definition strict_prefix (p q : string) : Prop :=
  String.prefix p q = true /\ p <> q.

(** Some selector of [L] properly extends [k]. *)
Definition has_extension (L : list string) (k : string) : Prop :=
  exists q, In q L /\ strict_prefix k q.

(** The test of [cut_step] on the carried selector. *)
Definition cut_cond (last_selector : option string) (selector : string)
  : bool :=
  match last_selector with
  | Some last => truthy last && truthy selector && startswith last selector
  | None => false
  end.

(** The cut read from the smallest selector upwards: [cut_step] folded from
    the right over an ascending list. *)
Definition cut_run (tree : Tree) (L : list string) : Tree * option string :=
  fold_right (fun selector st => cut_step st selector) (tree, None) L.

(** Selectors in the lexicographic order of [sorted]. *)
Definition ascending : list string -> Prop :=
  StronglySorted (fun s1 s2 => is_true (String.leb s1 s2)).

(** The anchors of a cluster, member by member. *)
Definition anchors_of (cluster : list Element) : list AnchorDescendant :=
  flat_map a_descendants cluster.

(** What one anchor adds to the result. *)
Definition contribution (best_path : string) (a : AnchorDescendant)
  : list Item :=
  emit best_path [] a.

(** The score of a cluster in the words of the specification: the
    arithmetic mean of [similarity_with_siblings] over the members, times
    [log10] of the number of members plus one. *)
Definition spec_score (cluster : list Element) : R :=
  (Rsum (map similarity_with_siblings cluster) / INR (List.length cluster)
   * np_log10 (INR (List.length cluster) + 1))%R.

(** What the vote reads of an anchor. *)
Definition vote_key (a : AnchorDescendant) : string * string :=
  (path a, text a).

Definition vote_on (self : ListExtractor)
    (probs : Dict.t string (list R)) (key : string * string)
  : Dict.t string (list R) :=
  Dict.append_to String.eqb probs (fst key)
    (_probability_of_title_with_length self (INR (String.length (snd key)))).

(** The four tests of [build_step] as one boolean: [true] when the node is
    appended to the tree. *)
Definition passes (self : ListExtractor) (d : Element) : bool :=
  negb (number_of_siblings d + 1 <? min_number self)%Z
  && negb (a_descendants_group_text_min_length d >? max_length self)%Z
  && negb (a_descendants_group_text_max_length d <? min_length self)%Z
  && (if Rlt_dec (similarity_with_siblings d) (similarity_threshold self)
      then false else true).

(** Some selector of [selectors] other than [k] starts with [k]. *)
Definition extended_in (selectors : list string) (k : string) : bool :=
  existsb (fun q => String.prefix k q && negb (q =? k)%string) selectors.

(** The selectors that the cut leaves in place: the empty one and those that
    no other selector extends. *)
Definition survives (selectors : list string) (k : string) : bool :=
  negb (truthy k && extended_in selectors k).

(** The score of a cluster beats the carried maximum [m]. *)
Definition beats (m : npfloat) (cluster : list Element) : bool :=
  float_gt (clusters_score cluster) m.

(** The likelihood that the vote files for an anchor. *)
Definition likelihood (self : ListExtractor) (a : AnchorDescendant) : R :=
  _probability_of_title_with_length self (INR (String.length (text a))).

(** ** Sample data

    Concrete pages and clusters on which the properties below are
    exercised. *)

Local Open Scope string_scope.

Definition bare_element : Element :=
  {| number_of_siblings := 5;
     parent_selector := "html>body>ul";
     a_descendants_group_text_min_length := 0;
     a_descendants_group_text_max_length := 0;
     similarity_with_siblings := 1;
     a_descendants := [] |}.

(** A list item under the parent [selector] that passes the default
    filter, with the given anchors. *)
Definition item_under (selector : string) (anchors : list AnchorDescendant)
  : Element :=
  {| number_of_siblings := 5;
     parent_selector := selector;
     a_descendants_group_text_min_length := 10;
     a_descendants_group_text_max_length := 20;
     similarity_with_siblings := 9 / 10;
     a_descendants := anchors |}.

Definition sample_descendants : list Element :=
  [item_under "" []; item_under "html" []].

(** One list item whose three anchors sit on the same path: a
    protocol-relative link, a site-relative link and an anchor without
    [href]. *)
Definition sample_anchors : list AnchorDescendant :=
  [ {| text := "First headline";
       attrib := [("href", "//example.com/a")]; path := "a" |};
    {| text := "Second headline";
       attrib := [("class", "more"); ("href", "/a")]; path := "a" |};
    {| text := "Third headline"; attrib := []; path := "a" |} ].

Definition sample_cluster : list Element :=
  [item_under "html>body>ul" sample_anchors].

Definition sample_result : list Item :=
  [ {| title := "First headline"; url := "http://example.com/a" |};
    {| title := "Second headline"; url := "/a" |} ].

(** Two clusters with the same score and a smaller one. *)
Definition sample_clusters : Clusters :=
  [ (0%Z, [item_under "html>body>p" []]);
    (1%Z, [item_under "html>body>ul" []; item_under "html>body>ul" []]);
    (2%Z, [item_under "html>body>ol" []; item_under "html>body>ol" []]) ].

(** A list item with two anchors: a headline of typical length that has no
    [href], and a short pager link that has one. *)
Definition headline_anchor : AnchorDescendant :=
  {| text := "A headline of 21 char"; attrib := []; path := "h3/a" |}.

Definition pager_anchor : AnchorDescendant :=
  {| text := "Next"; attrib := [("href", "/page/2")]; path := "a" |}.

Definition voting_cluster : list Element :=
  [item_under "html>body>ul" [headline_anchor; pager_anchor]].

Definition voting_cluster_without_headline : list Element :=
  [item_under "html>body>ul" [pager_anchor]].

(** A node with too few siblings for the default filter. *)
Definition lonely_element : Element :=
  {| number_of_siblings := 1;
     parent_selector := "html>body";
     a_descendants_group_text_min_length := 10;
     a_descendants_group_text_max_length := 20;
     similarity_with_siblings := 1;
     a_descendants := [] |}.

Local Close Scope string_scope.

(** * Properties *)

(** ** Real-number facts used by the scorer and the likelihood *)

Section RealFacts.
Local Open Scope R_scope.

Lemma ln10_pos : 0 < ln 10.
Proof. rewrite <- ln_1. apply ln_increasing; lra. Qed.

Lemma ln_monotone (x y : R) : 0 < x -> x <= y -> ln x <= ln y.
Proof.
  intros Hx [Hlt | ->]; [left; now apply ln_increasing | right; reflexivity].
Qed.

Lemma np_log10_monotone (x y : R) :
  0 < x -> x <= y -> np_log10 x <= np_log10 y.
Proof.
  intros Hx Hxy. unfold np_log10.
  apply Rmult_le_compat_r.
  - left. apply Rinv_0_lt_compat, ln10_pos.
  - now apply ln_monotone.
Qed.

Lemma np_log10_increasing (x y : R) :
  0 < x -> x < y -> np_log10 x < np_log10 y.
Proof.
  intros Hx Hxy. unfold np_log10.
  apply Rmult_lt_compat_r.
  - apply Rinv_0_lt_compat, ln10_pos.
  - now apply ln_increasing.
Qed.

Lemma np_log10_nonneg (x : R) : 1 <= x -> 0 <= np_log10 x.
Proof.
  intros Hx. replace 0 with (np_log10 1).
  - apply np_log10_monotone; lra.
  - unfold np_log10. rewrite ln_1. lra.
Qed.

Lemma INR_succ_ge_1 (n : nat) : 1 <= INR (n + 1).
Proof. rewrite plus_INR. simpl. pose proof (pos_INR n). lra. Qed.

Lemma exp_nonpos_le_1 (x : R) : x <= 0 -> exp x <= 1.
Proof.
  intros [Hlt | ->].
  - left. rewrite <- exp_0. now apply exp_increasing.
  - rewrite exp_0. lra.
Qed.

Lemma gauss_denominator_pos : 0 < sqrt (2 * PI) * sigma.
Proof.
  apply Rmult_lt_0_compat.
  - apply sqrt_lt_R0, Rgt_2PI_0.
  - unfold sigma. lra.
Qed.
End RealFacts.

(** ** The Gaussian peak *)

(** C8. The title likelihood, with [sigma = 6] and
    [avg_length = (min_length + max_length) / 2], is greatest at
    [avg_length]: no length, equal to [avg_length] or not, has a larger
    likelihood than [avg_length] has. *)
Theorem probability_peak_at_avg_length :
  forall (self : ListExtractor) (length : R),
    (_probability_of_title_with_length self (avg_length self)
     >= _probability_of_title_with_length self length)%R.
Proof.
  intros self len.
  unfold _probability_of_title_with_length.
  apply Rle_ge, Rmult_le_compat_r.
  - left. apply Rinv_0_lt_compat, gauss_denominator_pos.
  - replace (-1 * (avg_length self - avg_length self) ^ 2 / (2 * sigma ^ 2))%R
      with 0%R by (unfold sigma; field).
    rewrite exp_0. apply exp_nonpos_le_1.
    unfold sigma.
    pose proof (pow2_ge_0 (len - avg_length self)) as Hsq.
    apply Rmult_le_reg_r with (r := (2 * 6 ^ 2)%R); [lra |].
    unfold Rdiv. rewrite Rmult_assoc, Rinv_l by lra. lra.
Qed.

(** ** The empty cases *)

Lemma choose_best_cluster_empty :
  _choose_best_cluster [] = Raise (KeyError 0).
Proof. reflexivity. Qed.

(** C1. When the clustering hands an empty cluster mapping to the scorer,
    no cluster is scored, the initial arg-max 0 is looked up in the empty
    mapping, and [process] raises [KeyError] instead of returning an empty
    extraction result. *)
Theorem process_no_clusters_raises :
  forall (Html : Type) (preprocess4list : Html -> Html)
         (descendants_of_body : Html -> list Element)
         (cluster_dict : Tree -> Clusters)
         (self : ListExtractor) (element : Html),
    _build_clusters descendants_of_body cluster_dict self
      (preprocess4list element) = [] ->
    _choose_best_cluster
      (_build_clusters descendants_of_body cluster_dict self
         (preprocess4list element)) = Raise (KeyError 0) /\
    process preprocess4list descendants_of_body cluster_dict self element
      = Raise (KeyError 0) /\
    process preprocess4list descendants_of_body cluster_dict self element
      <> Return [].
Proof.
  intros Html pre desc cdict self element Hempty.
  unfold process. rewrite Hempty, choose_best_cluster_empty. simpl.
  repeat split; discriminate.
Qed.

Lemma process_no_clusters_raises_witness :
  process (fun page : unit => page) (fun _ => []) (fun _ => [])
    list_extractor tt = Raise (KeyError 0).
Proof.
  apply (process_no_clusters_raises (fun page : unit => page) (fun _ => [])
           (fun _ => []) list_extractor tt).
  reflexivity.
Defined.

Lemma probabilities_no_anchor (self : ListExtractor) (cluster : list Element) :
  (forall element, In element cluster -> a_descendants element = []) ->
  probabilities_of_title self cluster = [].
Proof.
  unfold probabilities_of_title. intros Hno.
  enough (forall probs,
             fold_left (fun probs element =>
                          fold_left (vote self) (a_descendants element) probs)
                       cluster probs = probs) as H by apply H.
  induction cluster as [| element cluster IH]; intros probs; simpl.
  - reflexivity.
  - rewrite (Hno element) by now left. simpl.
    apply IH. intros e He. apply Hno. now right.
Qed.

(** C2. On a cluster none of whose members has an anchor descendant, no
    path is voted for, [max] is applied to no item, and
    [_extract_from_cluster] raises [ValueError] instead of returning the
    empty result. *)
Theorem extract_no_anchor_raises :
  forall (self : ListExtractor) (cluster : list Element),
    (forall element, In element cluster -> a_descendants element = []) ->
    _extract_from_cluster self cluster = Raise ValueError /\
    _extract_from_cluster self cluster <> Return [].
Proof.
  intros self cluster Hno.
  unfold _extract_from_cluster, best_path_of, probabilities_of_title_avg.
  rewrite (probabilities_no_anchor self cluster Hno). simpl.
  split; [reflexivity | discriminate].
Qed.

Lemma extract_no_anchor_raises_witness :
  _extract_from_cluster list_extractor [bare_element] = Raise ValueError.
Proof.
  apply (extract_no_anchor_raises list_extractor [bare_element]).
  intros element [<- | []]. reflexivity.
Defined.

(** ** Dictionary facts *)

Section DictFacts.
Variable K : Type.
Variable eqb : K -> K -> bool.
Hypothesis eqb_spec : forall a b, reflect (a = b) (eqb a b).

Lemma get_append_to (A : Type) (d : Dict.t K (list A)) (k k' : K) (x : A) :
  Dict.get eqb (Dict.append_to eqb d k x) k' =
  if eqb k k'
  then Some (match Dict.get eqb d k with
             | Some l => l ++ [x]
             | None => [x]
             end)
  else Dict.get eqb d k'.
Proof.
  induction d as [| [k0 l] d IH]; simpl.
  - reflexivity.
  - destruct (eqb_spec k0 k) as [-> | Hne]; simpl.
    + destruct (eqb_spec k k'); reflexivity.
    + rewrite IH.
      destruct (eqb_spec k0 k') as [-> | Hne']; [| reflexivity].
      destruct (eqb_spec k k'); congruence.
Qed.

Lemma keys_append_to (A : Type) (d : Dict.t K (list A)) (k : K) (x : A) :
  Dict.keys (Dict.append_to eqb d k x) =
  if existsb (fun k0 => eqb k0 k) (Dict.keys d)
  then Dict.keys d else Dict.keys d ++ [k].
Proof.
  induction d as [| [k0 l] d IH]; simpl.
  - reflexivity.
  - destruct (eqb_spec k0 k) as [-> | Hne]; simpl.
    + reflexivity.
    + fold (Dict.keys d). rewrite IH.
      destruct (existsb _ (Dict.keys d)); reflexivity.
Qed.

End DictFacts.

Arguments get_append_to [K eqb] eqb_spec [A] d k k' x.
Arguments keys_append_to [K eqb] eqb_spec [A] d k x.

(** ** The candidate filter *)

Lemma build_step_qualifies (self : ListExtractor) (tree : Tree) (d : Element) :
  qualifies self d ->
  build_step self tree d =
  Dict.append_to String.eqb tree (parent_selector d) d.
Proof.
  intros (Hn & Hlen & Hsim). unfold build_step.
  destruct (Z.ltb_spec (number_of_siblings d + 1) (min_number self)); [lia |].
  rewrite Z.gtb_ltb.
  destruct (Z.ltb_spec (max_length self)
              (a_descendants_group_text_min_length d)).
  { exfalso. apply Hlen. left. lia. }
  destruct (Z.ltb_spec (a_descendants_group_text_max_length d)
              (min_length self)).
  { exfalso. apply Hlen. now right. }
  destruct (Rlt_dec _ _); [lra | reflexivity].
Qed.

Lemma build_step_rejects (self : ListExtractor) (tree : Tree) (d : Element) :
  ~ qualifies self d -> build_step self tree d = tree.
Proof.
  intros Hnot. unfold build_step.
  destruct (Z.ltb_spec (number_of_siblings d + 1) (min_number self));
    [reflexivity |].
  rewrite Z.gtb_ltb.
  destruct (Z.ltb_spec (max_length self)
              (a_descendants_group_text_min_length d)); [reflexivity |].
  destruct (Z.ltb_spec (a_descendants_group_text_max_length d)
              (min_length self)); [reflexivity |].
  destruct (Rlt_dec _ _) as [| Hge]; [reflexivity |].
  exfalso. apply Hnot. repeat split; [lia | intros [? | ?]; lia | lra].
Qed.

Lemma qualifies_dec (self : ListExtractor) (d : Element) :
  qualifies self d \/ ~ qualifies self d.
Proof.
  unfold qualifies.
  destruct (Z_ge_dec (number_of_siblings d + 1) (min_number self));
    [| right; tauto].
  destruct (Z_gt_dec (a_descendants_group_text_min_length d)
              (max_length self)); [right; tauto |].
  destruct (Z_lt_dec (a_descendants_group_text_max_length d)
              (min_length self)); [right; tauto |].
  destruct (Rge_dec (similarity_with_siblings d) (similarity_threshold self));
    [left | right]; tauto.
Qed.

Lemma candidate_tree_snoc (self : ListExtractor) (ds : list Element)
    (d : Element) :
  candidate_tree self (ds ++ [d]) = build_step self (candidate_tree self ds) d.
Proof. unfold candidate_tree. now rewrite fold_left_app. Qed.

(** C3. A node sits in the group that the candidate filter keeps under a
    selector exactly when it is a descendant of the body, has at least
    [min_number] siblings counting itself, has an anchor text-length range
    that overlaps [[min_length, max_length]] (neither its minimum above
    [max_length] nor its maximum below [min_length]), has a similarity of
    at least [similarity_threshold], and has that selector as its
    [parent_selector]. *)
Theorem candidate_filter_keeps :
  forall (self : ListExtractor) (descendants : list Element)
         (selector : string) (d : Element),
    (exists group,
        Dict.get String.eqb (candidate_tree self descendants) selector
          = Some group /\ In d group) <->
    (In d descendants /\
     ((number_of_siblings d + 1 >= min_number self)%Z /\
      ~ ((a_descendants_group_text_min_length d > max_length self)%Z \/
         (a_descendants_group_text_max_length d < min_length self)%Z) /\
      (similarity_with_siblings d >= similarity_threshold self)%R) /\
     parent_selector d = selector).
Proof.
  intros self descendants selector d.
  change (_ /\ _ /\ (_ >= _)%R) with (qualifies self d).
  induction descendants as [| x ds IH] using rev_ind.
  - simpl. split; [intros (g & Hg & _); discriminate | intros ([] & _)].
  - rewrite candidate_tree_snoc, in_app_iff. simpl.
    destruct (qualifies_dec self x) as [Hq | Hq].
    + rewrite (build_step_qualifies _ Hq), (get_append_to String.eqb_spec).
      destruct (String.eqb_spec (parent_selector x) selector) as [Hsel | Hsel].
      * split.
        -- intros (g & Hg & Hin). injection Hg as <-.
           destruct (Dict.get String.eqb (candidate_tree self ds)
                       (parent_selector x)) as [l |] eqn:Hget.
           ++ apply in_app_iff in Hin. destruct Hin as [Hin | [<- | []]].
              ** rewrite <- Hsel in IH.
                 destruct (proj1 IH (ex_intro _ l (conj Hget Hin)))
                   as (? & ? & ?).
                 split; [| split]; auto. congruence.
              ** split; [| split]; auto.
           ++ destruct Hin as [<- | []]. split; [| split]; auto.
        -- intros ([Hin | [<- | []]] & Hqd & Hps).
           ++ destruct (proj2 IH (conj Hin (conj Hqd Hps))) as (g & Hg & Hing).
              rewrite Hsel, Hg. eexists. split; [reflexivity |].
              apply in_app_iff. now left.
           ++ eexists. split; [reflexivity |].
              destruct (Dict.get String.eqb (candidate_tree self ds)
                          (parent_selector x));
                [apply in_app_iff; right |]; now left.
      * rewrite IH. split.
        -- intros (? & ? & ?). auto.
        -- intros ([Hin | [<- | []]] & Hqd & Hps); [auto | contradiction].
    + rewrite (build_step_rejects _ Hq), IH. split.
      * intros (? & ? & ?). auto.
      * intros ([Hin | [<- | []]] & Hqd & Hps); [auto | contradiction].
Qed.

(** ** The order on selectors and the prefix relation *)

Section SelectorFacts.
Local Open Scope string_scope.

Lemma leb_cons (a b : ascii) (s t : string) :
  (String a s <=? String b t) =
  match Ascii.compare a b with
  | Eq => s <=? t
  | Lt => true
  | Gt => false
  end.
Proof.
  unfold String.leb. simpl. now destruct (Ascii.compare a b).
Qed.

Lemma leb_trans (s1 s2 s3 : string) :
  (s1 <=? s2) = true -> (s2 <=? s3) = true -> (s1 <=? s3) = true.
Proof.
  revert s2 s3.
  induction s1 as [| a s1 IH]; intros [| b s2] [| c s3];
    try reflexivity; try discriminate.
  rewrite !leb_cons. unfold Ascii.compare.
  destruct (N.compare_spec (N_of_ascii a) (N_of_ascii b)) as [Hab | Hab | Hab];
    destruct (N.compare_spec (N_of_ascii b) (N_of_ascii c))
      as [Hbc | Hbc | Hbc];
    destruct (N.compare_spec (N_of_ascii a) (N_of_ascii c))
      as [Hac | Hac | Hac];
    try discriminate; try reflexivity; try lia.
  apply IH.
Qed.

Lemma prefix_empty (s : string) : String.prefix "" s = true.
Proof. now destruct s. Qed.

Lemma prefix_leb (p q : string) :
  String.prefix p q = true -> (p <=? q) = true.
Proof.
  revert q. induction p as [| a p IH]; intros [| b q]; simpl;
    try reflexivity; try discriminate.
  destruct (ascii_dec a b) as [<- | _]; [| discriminate].
  intros Hpre. rewrite leb_cons. unfold Ascii.compare.
  rewrite N.compare_refl. now apply IH.
Qed.

(** Between a string and one of its extensions, the order holds only
    extensions of that string. *)
Lemma prefix_between (p s q : string) :
  String.prefix p q = true ->
  (p <=? s) = true -> (s <=? q) = true ->
  String.prefix p s = true.
Proof.
  revert s q. induction p as [| a p IH]; intros s q.
  - intros _ _ _. apply prefix_empty.
  - destruct q as [| b q]; [discriminate |]. simpl.
    destruct (ascii_dec a b) as [<- | _]; [| discriminate].
    destruct s as [| c s]; [discriminate |].
    rewrite !leb_cons. intros Hpre Hps Hsq.
    destruct (Ascii.compare a c) eqn:Hac; try discriminate.
    + apply Ascii.compare_eq_iff in Hac. subst c.
      unfold Ascii.compare in Hsq. rewrite N.compare_refl in Hsq.
      simpl. destruct (ascii_dec a a) as [_ | Hne]; [| now elim Hne].
      now apply IH with (q := q).
    + rewrite Ascii.compare_antisym, Hac in Hsq. discriminate.
Qed.

Lemma prefix_truthy (p q : string) :
  String.prefix p q = true -> truthy p = true -> truthy q = true.
Proof. destruct p, q; simpl; auto; discriminate. Qed.

Lemma truthy_iff (s : string) : truthy s = true <-> s <> "".
Proof. destruct s; simpl; split; intros H; easy. Qed.
End SelectorFacts.


(** ** Deleting from a dictionary *)

Section DictDelFacts.
Variable K : Type.
Variable eqb : K -> K -> bool.
Hypothesis eqb_spec : forall a b, reflect (a = b) (eqb a b).
Variable V : Type.

Lemma keys_del_subset (d : Dict.t K V) (x k : K) :
  In k (Dict.keys (Dict.del eqb d x)) -> In k (Dict.keys d).
Proof.
  induction d as [| [k0 v0] d IH]; simpl; [auto |].
  destruct (eqb_spec k0 x); simpl; intuition.
Qed.

Lemma keys_del (d : Dict.t K V) (x k : K) :
  NoDup (Dict.keys d) ->
  In k (Dict.keys (Dict.del eqb d x)) <-> In k (Dict.keys d) /\ k <> x.
Proof.
  induction d as [| [k0 v0] d IH]; simpl; intros Hnd.
  - tauto.
  - inversion Hnd as [| ? ? Hnotin Hnd']; subst.
    destruct (eqb_spec k0 x) as [-> | Hne]; simpl.
    + fold (Dict.keys d). split.
      * intros Hin. split; [now right | intros ->; contradiction].
      * intros [[-> | Hin] Hkx]; [contradiction | assumption].
    + fold (Dict.keys (Dict.del eqb d x)). rewrite (IH Hnd'). split.
      * intros [<- | [Hin Hkx]]; auto.
      * intros [[<- | Hin] Hkx]; auto.
Qed.

Lemma NoDup_del (d : Dict.t K V) (x : K) :
  NoDup (Dict.keys d) -> NoDup (Dict.keys (Dict.del eqb d x)).
Proof.
  induction d as [| [k0 v0] d IH]; simpl; intros Hnd; [constructor |].
  inversion Hnd as [| ? ? Hnotin Hnd']; subst.
  destruct (eqb_spec k0 x); simpl; [assumption |].
  constructor; [| now apply IH].
  intros Hin. apply Hnotin. eapply keys_del_subset, Hin.
Qed.

Lemma get_del (d : Dict.t K V) (x k : K) :
  k <> x -> Dict.get eqb (Dict.del eqb d x) k = Dict.get eqb d k.
Proof.
  intros Hkx. induction d as [| [k0 v0] d IH]; simpl; [reflexivity |].
  destruct (eqb_spec k0 x) as [-> | Hne]; simpl.
  - destruct (eqb_spec x k); congruence.
  - now rewrite IH.
Qed.
End DictDelFacts.

Arguments keys_del [K eqb] eqb_spec [V] d x k.
Arguments NoDup_del [K eqb] eqb_spec [V] d x.
Arguments get_del [K eqb] eqb_spec [V] d [x k].

Lemma NoDup_keys_candidate_tree (self : ListExtractor) (ds : list Element) :
  NoDup (Dict.keys (candidate_tree self ds)).
Proof.
  induction ds as [| x ds IH] using rev_ind; [constructor |].
  rewrite candidate_tree_snoc.
  destruct (qualifies_dec self x) as [Hq | Hq].
  - rewrite (build_step_qualifies _ Hq), (keys_append_to String.eqb_spec).
    destruct (existsb _ _) eqn:Hex; [assumption |].
    apply NoDup_app; [assumption | repeat constructor; intros [] |].
    intros k Hk [<- | []].
    assert (existsb (fun k0 => k0 =? parent_selector x)%string
              (Dict.keys (candidate_tree self ds)) = true) as Hyes;
      [| congruence].
    apply existsb_exists. exists (parent_selector x).
    split; [assumption | apply String.eqb_refl].
  - now rewrite (build_step_rejects _ Hq).
Qed.

(** ** The tree cut *)

Lemma leb_refl (s : string) : (s <=? s)%string = true.
Proof. now destruct (String.leb_total s s). Qed.

Lemma ascending_sorted (l : list string) : ascending (sorted l).
Proof.
  apply SelectorSort.StronglySorted_sort.
  intros s1 s2 s3. apply leb_trans.
Qed.

Lemma In_sorted (l : list string) (s : string) : In s (sorted l) <-> In s l.
Proof.
  pose proof (SelectorSort.Permuted_sort l) as Hperm. split.
  - apply Permutation_in. now apply Permutation_sym.
  - now apply Permutation_in.
Qed.

Lemma NoDup_sorted (l : list string) : NoDup l -> NoDup (sorted l).
Proof. apply Permutation_NoDup, SelectorSort.Permuted_sort. Qed.

Lemma cut_step_eq (tree : Tree) (last : option string) (selector : string) :
  cut_step (tree, last) selector =
  (if cut_cond last selector
   then Dict.del String.eqb tree selector else tree,
   Some selector).
Proof. destruct last; reflexivity. Qed.

(** The cut, read from the smallest selector upwards: each selector is
    tested against its successor in the ascending order. *)
Lemma cut_tree_fold_right (tree : Tree) :
  cut_tree tree = fst (cut_run tree (sorted (Dict.keys tree))).
Proof.
  unfold cut_tree, cut_run.
  rewrite <- (rev_involutive (sorted (Dict.keys tree))) at 2.
  now rewrite fold_left_rev_right.
Qed.

(** On an ascending list without repetition, the head is cut exactly when
    it is non-empty and some later selector extends it. *)
Lemma cut_cond_head (x : string) (L : list string) :
  ascending (x :: L) -> NoDup (x :: L) ->
  cut_cond (hd_error L) x = true <-> x <> ""%string /\ has_extension (x :: L) x.
Proof.
  intros Hasc Hnd.
  apply StronglySorted_inv in Hasc. destruct Hasc as [HascL Hx].
  inversion Hnd as [| ? ? Hnotin HndL]; subst.
  split.
  - destruct L as [| y L]; [discriminate |]. simpl.
    unfold startswith. intros Hc.
    apply andb_prop in Hc. destruct Hc as [Hc Hpre].
    apply andb_prop in Hc. destruct Hc as [_ Htx].
    split; [now apply truthy_iff |].
    exists y. split; [right; now left |].
    split; [assumption |]. intros ->. apply Hnotin. now left.
  - intros [Hne (q & Hq & Hpre & Hxq)].
    destruct Hq as [<- | Hq]; [congruence |].
    destruct L as [| y L]; [destruct Hq |]. simpl.
    assert (String.prefix x y = true) as Hxy.
    { apply prefix_between with (q := q); [assumption | |].
      - inversion Hx; assumption.
      - destruct Hq as [<- | Hq]; [apply leb_refl |].
        apply StronglySorted_inv in HascL. destruct HascL as [_ Hy].
        rewrite Forall_forall in Hy. now apply Hy. }
    apply truthy_iff in Hne. unfold startswith.
    now rewrite (prefix_truthy _ _ Hxy Hne), Hne, Hxy.
Qed.

(** A selector is never extended by a smaller one. *)
Lemma has_extension_tail (x k : string) (L : list string) :
  ascending (x :: L) -> In k L ->
  has_extension (x :: L) k <-> has_extension L k.
Proof.
  intros Hasc Hk. apply StronglySorted_inv in Hasc. destruct Hasc as [_ Hx].
  rewrite Forall_forall in Hx. split.
  - intros (q & [<- | Hq] & Hpre & Hkq).
    + elim Hkq. apply String.leb_antisym; [now apply prefix_leb |].
      now apply Hx.
    + exists q. repeat split; assumption.
  - intros (q & Hq & Hpre). exists q. split; [now right | assumption].
Qed.

Section CutInvariant.
Variable tree : Tree.
Hypothesis tree_NoDup : NoDup (Dict.keys tree).

Lemma run_last (L : list string) : snd (cut_run tree L) = hd_error L.
Proof.
  destruct L as [| x L]; [reflexivity |].
  unfold cut_run. simpl. destruct (fold_right _ _ L) as [t last].
  now rewrite cut_step_eq.
Qed.

Lemma run_cons (x : string) (L : list string) :
  fst (cut_run tree (x :: L)) =
  if cut_cond (hd_error L) x
  then Dict.del String.eqb (fst (cut_run tree L)) x
  else fst (cut_run tree L).
Proof.
  rewrite <- run_last. unfold cut_run. simpl.
  destruct (fold_right _ _ L) as [t last].
  now rewrite cut_step_eq.
Qed.

Lemma run_NoDup (L : list string) : NoDup (Dict.keys (fst (cut_run tree L))).
Proof.
  induction L as [| x L IH]; [exact tree_NoDup |].
  rewrite run_cons. destruct (cut_cond _ _); [| assumption].
  now apply (NoDup_del String.eqb_spec).
Qed.

Lemma run_get (L : list string) (k : string) :
  In k (Dict.keys (fst (cut_run tree L))) ->
  Dict.get String.eqb (fst (cut_run tree L)) k = Dict.get String.eqb tree k.
Proof.
  induction L as [| x L IH]; [reflexivity |].
  rewrite run_cons. destruct (cut_cond _ _); [| assumption].
  intros Hin. apply (keys_del String.eqb_spec) in Hin; [| apply run_NoDup].
  destruct Hin as [Hin Hkx].
  rewrite (get_del String.eqb_spec) by assumption. now apply IH.
Qed.

Lemma run_keys (L : list string) (k : string) :
  ascending L -> NoDup L ->
  In k (Dict.keys (fst (cut_run tree L))) <->
  In k (Dict.keys tree) /\
  ~ (In k L /\ k <> ""%string /\ has_extension L k).
Proof.
  induction L as [| x L IH]; intros Hasc Hnd.
  - simpl. tauto.
  - pose proof (cut_cond_head Hasc Hnd) as Hhead.
    pose proof (fun Hk => @has_extension_tail x k L Hasc Hk) as Htail.
    apply StronglySorted_inv in Hasc. destruct Hasc as [HascL _].
    inversion Hnd as [| ? ? Hnotin HndL]; subst.
    specialize (IH HascL HndL).
    rewrite run_cons.
    destruct (string_dec k x) as [-> | Hkx].
    + destruct (cut_cond (hd_error L) x).
      * rewrite (keys_del String.eqb_spec) by apply run_NoDup.
        split; [tauto |]. intros [_ Hnot]. elim Hnot.
        split; [now left | now apply Hhead].
      * rewrite IH. split.
        -- intros [Hin _]. split; [assumption |].
           intros [_ Hd]. apply Hhead in Hd. discriminate.
        -- intros [Hin _]. split; [assumption | tauto].
    + assert (In k (x :: L) <-> In k L) as HinL.
      { simpl. split; [intros [-> | ?]; [congruence | assumption] | auto]. }
      assert (In k (Dict.keys (fst (cut_run tree L))) <->
              In k (Dict.keys tree) /\
              ~ (In k (x :: L) /\ k <> ""%string /\ has_extension (x :: L) k))
        as Hgoal.
      { rewrite IH, HinL. split; intros [Hin Hnot]; (split; [assumption |]);
          intros (HkL & Hne & Hext); apply Hnot;
          (split; [assumption | split; [assumption |]]);
          now apply (Htail HkL). }
      destruct (cut_cond (hd_error L) x); [| assumption].
      rewrite (keys_del String.eqb_spec) by apply run_NoDup.
      rewrite Hgoal. tauto.
Qed.
End CutInvariant.

(** C4, as the code has it. On a mapping without repeated selectors the
    cut keeps a selector exactly when it is the empty string or no selector
    of the mapping properly extends it, and leaves the kept entries as they
    were.  Hence no non-empty kept selector is a proper prefix of a kept
    selector, and of a non-empty selector and a selector that properly
    extends it, the shorter one is dropped. *)
Theorem cut_tree_keeps :
  forall (tree : Tree),
    NoDup (Dict.keys tree) ->
    (forall k,
        In k (Dict.keys (cut_tree tree)) <->
        In k (Dict.keys tree) /\
        (k = ""%string \/ ~ has_extension (Dict.keys tree) k)) /\
    (forall k,
        In k (Dict.keys (cut_tree tree)) ->
        Dict.get String.eqb (cut_tree tree) k = Dict.get String.eqb tree k) /\
    (forall p q,
        In p (Dict.keys (cut_tree tree)) ->
        In q (Dict.keys (cut_tree tree)) ->
        p <> ""%string -> ~ strict_prefix p q) /\
    (forall p q,
        In p (Dict.keys tree) -> In q (Dict.keys tree) ->
        p <> ""%string -> strict_prefix p q ->
        ~ In p (Dict.keys (cut_tree tree))).
Proof.
  intros tree Hnd.
  assert (forall k,
             In k (Dict.keys (cut_tree tree)) <->
             In k (Dict.keys tree) /\
             (k = ""%string \/ ~ has_extension (Dict.keys tree) k)) as Hkeys.
  { intros k. rewrite cut_tree_fold_right.
    rewrite (run_keys tree Hnd k (ascending_sorted _) (NoDup_sorted Hnd)).
    rewrite In_sorted.
    assert (has_extension (sorted (Dict.keys tree)) k <->
            has_extension (Dict.keys tree) k) as ->.
    { split; intros (q & Hq & Hpre); exists q; (split; [| assumption]);
        now apply In_sorted. }
    destruct (string_dec k "") as [-> | Hne]; tauto. }
  split; [exact Hkeys |]. split; [| split].
  - intros k. rewrite cut_tree_fold_right. apply (run_get tree Hnd).
  - intros p q Hp Hq Hne Hpre.
    apply Hkeys in Hp. destruct Hp as [_ [-> | Hnot]]; [congruence |].
    apply Hnot. exists q. split; [| assumption].
    apply Hkeys in Hq. tauto.
  - intros p q Hp Hq Hne Hpre Hkept.
    apply Hkeys in Hkept. destruct Hkept as [_ [-> | Hnot]]; [congruence |].
    apply Hnot. now exists q.
Qed.

Lemma sample_candidate_tree :
  candidate_tree list_extractor sample_descendants =
  [(""%string, [item_under "" []]); ("html"%string, [item_under "html" []])].
Proof.
  assert (forall sel, qualifies list_extractor (item_under sel [])) as Hq.
  { intros sel. unfold qualifies, list_extractor, SIMILARITY_THRESHOLD. simpl.
    unfold LIST_MIN_NUMBER, LIST_MAX_LENGTH, LIST_MIN_LENGTH.
    split; [lia | split; [intros [? | ?]; lia | lra]]. }
  unfold candidate_tree, sample_descendants. simpl.
  now rewrite !(build_step_qualifies _ (Hq _)).
Qed.

Lemma cut_two_groups (g1 g2 : list Element) :
  cut_tree [(""%string, g1); ("html"%string, g2)] =
  [(""%string, g1); ("html"%string, g2)].
Proof. reflexivity. Qed.

Lemma cut_tree_keeps_witness :
  In "html"%string
     (Dict.keys (cut_tree (candidate_tree list_extractor sample_descendants))).
Proof.
  apply (proj1 (cut_tree_keeps
                  (candidate_tree list_extractor sample_descendants)
                  (NoDup_keys_candidate_tree list_extractor
                     sample_descendants))).
  rewrite sample_candidate_tree. split; [simpl; auto |].
  right. intros (q & [<- | [<- | []]] & Hpre & Hne);
    [discriminate Hpre | now elim Hne].
Defined.

Lemma cut_tree_keeps_empty_selector :
  ~ (forall p q,
        In p (Dict.keys (cut_tree (candidate_tree list_extractor
                                     sample_descendants))) ->
        In q (Dict.keys (cut_tree (candidate_tree list_extractor
                                     sample_descendants))) ->
        ~ strict_prefix p q).
Proof.
  intros Hclaim. rewrite sample_candidate_tree, cut_two_groups in Hclaim.
  apply (Hclaim ""%string "html"%string); simpl; auto.
  split; [reflexivity | discriminate].
Qed.

(** ** The title extractor *)

Lemma nested_fold_flat_map (A B C : Type) (f : A -> C -> A) (g : B -> list C)
    (l : list B) (acc : A) :
  fold_left (fun acc b => fold_left f (g b) acc) l acc =
  fold_left f (flat_map g l) acc.
Proof.
  revert acc. induction l as [| b l IH]; intros acc; simpl.
  - reflexivity.
  - now rewrite fold_left_app, IH.
Qed.

Lemma emit_acc (best_path : string) (result : list Item)
    (a : AnchorDescendant) :
  emit best_path result a = result ++ contribution best_path a.
Proof.
  unfold contribution, emit.
  destruct (negb (path a =? best_path)%string); [now rewrite app_nil_r |].
  destruct (Dict.get String.eqb (attrib a) "href"%string) as [href |];
    [| now rewrite app_nil_r].
  destruct (negb (truthy href)); [now rewrite app_nil_r | reflexivity].
Qed.

Lemma fold_emit (best_path : string) (l : list AnchorDescendant)
    (result : list Item) :
  fold_left (emit best_path) l result =
  result ++ flat_map (contribution best_path) l.
Proof.
  revert result. induction l as [| a l IH]; intros result; simpl.
  - now rewrite app_nil_r.
  - now rewrite IH, emit_acc, app_assoc.
Qed.

Lemma extract_with_flat_map (best_path : string) (cluster : list Element) :
  extract_with best_path cluster =
  flat_map (contribution best_path) (anchors_of cluster).
Proof.
  unfold extract_with, anchors_of.
  now rewrite nested_fold_flat_map, fold_emit.
Qed.

Lemma contribution_off_path (best_path : string) (a : AnchorDescendant) :
  path a <> best_path -> contribution best_path a = [].
Proof.
  intros Hne. unfold contribution, emit.
  now destruct (String.eqb_spec (path a) best_path).
Qed.

Lemma contribution_no_href (best_path : string) (a : AnchorDescendant) :
  Dict.get String.eqb (attrib a) "href"%string = None \/
  Dict.get String.eqb (attrib a) "href"%string = Some ""%string ->
  contribution best_path a = [].
Proof.
  unfold contribution, emit. intros [-> | ->];
    now destruct (negb (path a =? best_path)%string).
Qed.

Lemma contribution_href (best_path : string) (a : AnchorDescendant)
    (href : string) :
  path a = best_path ->
  Dict.get String.eqb (attrib a) "href"%string = Some href ->
  href <> ""%string ->
  contribution best_path a =
  [{| title := text a;
      url := if String.prefix "//" href then ("http:" ++ href)%string
             else href |}].
Proof.
  intros Hpath Hget Hne. unfold contribution, emit.
  rewrite Hget, Hpath, String.eqb_refl. simpl.
  apply truthy_iff in Hne. now rewrite Hne.
Qed.

Lemma contribution_In (best_path : string) (a : AnchorDescendant) (r : Item) :
  In r (contribution best_path a) ->
  exists href,
    path a = best_path /\
    Dict.get String.eqb (attrib a) "href"%string = Some href /\
    href <> ""%string /\
    r = {| title := text a;
           url := if String.prefix "//" href then ("http:" ++ href)%string
                  else href |}.
Proof.
  destruct (String.eqb_spec (path a) best_path) as [Hpath | Hpath].
  - destruct (Dict.get String.eqb (attrib a) "href"%string) as [href |]
      eqn:Hget.
    + destruct (string_dec href "") as [-> | Hne].
      * rewrite contribution_no_href by auto. intros [].
      * rewrite (contribution_href a Hpath Hget Hne). intros [<- | []].
        now exists href.
    + rewrite contribution_no_href by auto. intros [].
  - rewrite (contribution_off_path _ Hpath). intros [].
Qed.

Lemma probabilities_flat (self : ListExtractor) (cluster : list Element) :
  probabilities_of_title self cluster =
  fold_left (vote self) (anchors_of cluster) [].
Proof. apply nested_fold_flat_map. Qed.

Lemma append_to_nonempty (d : Dict.t string (list R)) (k : string) (x : R) :
  Dict.append_to String.eqb d k x <> [].
Proof.
  destruct d as [| [k0 l] d]; simpl; [discriminate |].
  destruct (k0 =? k)%string; discriminate.
Qed.

Lemma fold_vote_nonempty (self : ListExtractor) (l : list AnchorDescendant)
    (probs : Dict.t string (list R)) :
  l <> [] \/ probs <> [] -> fold_left (vote self) l probs <> [].
Proof.
  revert probs. induction l as [| a l IH]; intros probs Hne; simpl.
  - destruct Hne as [Hne | Hne]; [now elim Hne | assumption].
  - apply IH. right. apply append_to_nonempty.
Qed.

(** With an anchor in the cluster the vote has a winner. *)
Lemma best_path_exists (self : ListExtractor) (cluster : list Element) :
  anchors_of cluster <> [] ->
  exists best_path, best_path_of self cluster = Return best_path.
Proof.
  intros Hne. unfold best_path_of, probabilities_of_title_avg.
  pose proof (@fold_vote_nonempty self (anchors_of cluster) [] (or_introl Hne))
    as Hprobs.
  rewrite <- probabilities_flat in Hprobs.
  destruct (probabilities_of_title self cluster) as [| first rest];
    [now elim Hprobs |].
  simpl. eexists. reflexivity.
Qed.

Lemma sample_extraction :
  _extract_from_cluster list_extractor sample_cluster = Return sample_result.
Proof. reflexivity. Qed.

(** C6. Every record that the extraction returns has a non-empty [url] and
    comes from an anchor of the cluster with a non-empty [href]: the [url]
    is ["http:"] followed by the [href] when the [href] starts with ["//"],
    and the [href] itself otherwise. *)
Theorem emitted_url_normalized :
  forall (self : ListExtractor) (cluster : list Element)
         (result : list Item) (r : Item),
    _extract_from_cluster self cluster = Return result ->
    In r result ->
    url r <> ""%string /\
    exists a href,
      In a (anchors_of cluster) /\
      Dict.get String.eqb (attrib a) "href"%string = Some href /\
      href <> ""%string /\
      title r = text a /\
      (String.prefix "//" href = true -> url r = ("http:" ++ href)%string) /\
      (String.prefix "//" href = false -> url r = href).
Proof.
  intros self cluster result r. unfold _extract_from_cluster.
  destruct (best_path_of self cluster) as [best_path | e]; [| discriminate].
  simpl. intros [= <-]. rewrite extract_with_flat_map.
  intros Hin. apply in_flat_map in Hin. destruct Hin as (a & Ha & Hr).
  apply contribution_In in Hr. destruct Hr as (href & _ & Hget & Hne & ->).
  simpl. split.
  - destruct (String.prefix "//" href); [discriminate | assumption].
  - exists a, href. repeat split; try assumption.
    + now intros ->.
    + now intros ->.
Qed.

Lemma emitted_url_normalized_witness :
  url {| title := "First headline"; url := "http://example.com/a" |}
  <> ""%string.
Proof.
  apply (proj1 (@emitted_url_normalized list_extractor sample_cluster
                  sample_result _ sample_extraction (or_introl eq_refl))).
Defined.

(** C7. When the cluster has an anchor, the extraction returns, and its
    result is the concatenation, in member and anchor order, of what each
    anchor contributes: nothing for an anchor without [href] or with an
    empty [href], nothing for an anchor off the best path, and exactly one
    record for every other anchor, whatever its neighbours are. *)
Theorem anchor_without_href_skipped :
  forall (self : ListExtractor) (cluster : list Element),
    anchors_of cluster <> [] ->
    exists (best_path : string) (emitted : AnchorDescendant -> list Item),
      best_path_of self cluster = Return best_path /\
      _extract_from_cluster self cluster =
        Return (flat_map emitted (anchors_of cluster)) /\
      (forall a,
          Dict.get String.eqb (attrib a) "href"%string = None \/
          Dict.get String.eqb (attrib a) "href"%string = Some ""%string ->
          emitted a = []) /\
      (forall a, path a <> best_path -> emitted a = []) /\
      (forall a href,
          path a = best_path ->
          Dict.get String.eqb (attrib a) "href"%string = Some href ->
          href <> ""%string ->
          emitted a =
          [{| title := text a;
              url := if String.prefix "//" href then ("http:" ++ href)%string
                     else href |}]).
Proof.
  intros self cluster Hne.
  destruct (best_path_exists self cluster Hne) as [best_path Hbest].
  exists best_path, (contribution best_path).
  split; [assumption |]. split; [| split; [| split]].
  - unfold _extract_from_cluster. rewrite Hbest. simpl.
    now rewrite extract_with_flat_map.
  - intros a. apply contribution_no_href.
  - intros a. apply contribution_off_path.
  - intros a href. apply contribution_href.
Qed.

Lemma anchor_without_href_skipped_witness :
  exists (best_path : string) (emitted : AnchorDescendant -> list Item),
    best_path_of list_extractor sample_cluster = Return best_path /\
    _extract_from_cluster list_extractor sample_cluster =
      Return (flat_map emitted (anchors_of sample_cluster)) /\
    (forall a,
        Dict.get String.eqb (attrib a) "href"%string = None \/
        Dict.get String.eqb (attrib a) "href"%string = Some ""%string ->
        emitted a = []) /\
    (forall a, path a <> best_path -> emitted a = []) /\
    (forall a href,
        path a = best_path ->
        Dict.get String.eqb (attrib a) "href"%string = Some href ->
        href <> ""%string ->
        emitted a =
        [{| title := text a;
            url := if String.prefix "//" href then ("http:" ++ href)%string
                   else href |}]).
Proof.
  apply (anchor_without_href_skipped list_extractor sample_cluster).
  discriminate.
Defined.

(** ** The cluster scorer *)

Lemma np_mean_nonempty (l : list R) :
  l <> [] -> np_mean l = fin (Rsum l / INR (List.length l)).
Proof. destruct l; [intros Hne; now elim Hne | reflexivity]. Qed.

Lemma clusters_score_spec (cluster : list Element) :
  cluster <> [] -> clusters_score cluster = fin (spec_score cluster).
Proof.
  intros Hne. unfold clusters_score, spec_score.
  rewrite np_mean_nonempty by (destruct cluster; [now elim Hne | discriminate]).
  cbn [float_mul]. rewrite length_map, plus_INR. reflexivity.
Qed.

Lemma spec_score_is_score (cluster : list Element) :
  spec_score cluster =
  score (Rsum (map similarity_with_siblings cluster)
         / INR (List.length cluster))
        (List.length cluster).
Proof. unfold spec_score, score. now rewrite plus_INR. Qed.

(** C9. The score of a non-empty cluster is [score] at the mean similarity
    and the size of the cluster, and [score s n = s * log10 (n + 1)] does
    not decrease when the count grows and the mean similarity is fixed in
    [[0,1]], nor when the mean similarity grows and the count is fixed at a
    value of at least one. *)
Theorem score_monotone :
  forall (cluster : list Element) (s1 s2 : R) (n1 n2 : nat),
    (cluster <> [] ->
     clusters_score cluster =
     fin (score (Rsum (map similarity_with_siblings cluster)
                 / INR (List.length cluster))
                (List.length cluster))) /\
    ((0 <= s1 <= 1)%R -> n1 <= n2 -> (score s1 n1 <= score s1 n2)%R) /\
    (1 <= n1 -> (s1 <= s2)%R -> (score s1 n1 <= score s2 n1)%R).
Proof.
  intros cluster s1 s2 n1 n2. split; [| unfold score; split].
  - intros Hne. rewrite <- spec_score_is_score.
    now apply clusters_score_spec.
  - intros [Hs _] Hn.
    apply Rmult_le_compat_l; [exact Hs |].
    apply np_log10_monotone.
    + pose proof (INR_succ_ge_1 n1). lra.
    + apply le_INR. lia.
  - intros _ Hs.
    apply Rmult_le_compat_r; [| exact Hs].
    apply np_log10_nonneg, INR_succ_ge_1.
Qed.

Lemma score_monotone_witness :
  clusters_score [bare_element] = fin (score (Rsum [1%R] / INR 1) 1) /\
  (score (1 / 2) 1 <= score (1 / 2) 2)%R /\ (score 0 1 <= score 1 1)%R.
Proof.
  split; [| split].
  - apply (proj1 (score_monotone [bare_element] 0 0 0 0)). discriminate.
  - apply (proj1 (proj2 (score_monotone [] (1 / 2) 1 1 2))); [lra | lia].
  - apply (proj2 (proj2 (score_monotone [] 0 1 1 1))); [lia | lra].
Defined.

Lemma Rsum_nonneg (l : list R) :
  (forall x, In x l -> (0 <= x)%R) -> (0 <= Rsum l)%R.
Proof.
  induction l as [| x l IH]; intros Hpos; simpl; [lra |].
  pose proof (Hpos x (or_introl eq_refl)).
  assert (0 <= Rsum l)%R by (apply IH; intros y Hy; apply Hpos; now right).
  lra.
Qed.

Lemma get_middle (pre post : Clusters) (cid : Z) (c : list Element) :
  ~ In cid (Dict.keys pre) ->
  Dict.get Z.eqb (pre ++ (cid, c) :: post) cid = Some c.
Proof.
  induction pre as [| [k v] pre IH]; simpl; intros Hnotin.
  - now rewrite Z.eqb_refl.
  - destruct (Z.eqb_spec k cid) as [-> | Hne]; [tauto |].
    apply IH. tauto.
Qed.

(** ** The scorer over binary64 arithmetic *)

(** The scorer in exact arithmetic is the scorer over exact operations. *)
Lemma choose_best_cluster64_exact (clusters : Clusters) :
  _choose_best_cluster64 np_mean exact_log10 Rmult clusters =
  _choose_best_cluster clusters.
Proof. reflexivity. Qed.

Lemma exact_mean_of_unit (l : list R) :
  l <> [] -> (forall x, In x l -> (0 <= x <= 1)%R) ->
  exists v, np_mean l = fin v /\ (0 <= v)%R.
Proof.
  intros Hne Hunit. rewrite (np_mean_nonempty Hne). eexists.
  split; [reflexivity |].
  apply Rmult_le_pos.
  - apply Rsum_nonneg. intros x Hx. now apply Hunit.
  - left. apply Rinv_0_lt_compat, lt_0_INR.
    destruct l; [now elim Hne | simpl; lia].
Qed.

Lemma exact_log10_nonneg (k : nat) : 1 <= k -> (0 <= exact_log10 k)%R.
Proof.
  intros Hk. apply np_log10_nonneg.
  replace 1%R with (INR 1) by reflexivity. now apply le_INR.
Qed.

Section Scorer64.
Variable mean : list R -> npfloat.
Variable log10 : nat -> R.
Variable mul : R -> R -> R.

(** What the proofs ask of the arithmetic, and binary64 gives: the mean of
    numbers between 0 and 1 is a non-negative number, the logarithm of a
    positive integer is not negative, and neither is the product of two
    non-negative numbers. *)
Hypothesis mean_of_unit :
  forall l, l <> [] -> (forall x, In x l -> (0 <= x <= 1)%R) ->
            exists v, mean l = fin v /\ (0 <= v)%R.
Hypothesis log10_nonneg : forall k, 1 <= k -> (0 <= log10 k)%R.
Hypothesis mul_nonneg :
  forall a b, (0 <= a)%R -> (0 <= b)%R -> (0 <= mul a b)%R.

Lemma clusters_score64_number (cluster : list Element) :
  cluster <> [] ->
  (forall e, In e cluster -> (0 <= similarity_with_siblings e <= 1)%R) ->
  exists avg,
    mean (map similarity_with_siblings cluster) = fin avg /\
    clusters_score64 mean log10 mul cluster
      = fin (mul avg (log10 (List.length cluster + 1))) /\
    (0 <= mul avg (log10 (List.length cluster + 1)))%R.
Proof.
  intros Hne Hunit.
  destruct (mean_of_unit (l := map similarity_with_siblings cluster))
    as (avg & Havg & Hpos).
  - destruct cluster; [now elim Hne | discriminate].
  - intros x Hx. apply in_map_iff in Hx. destruct Hx as (e & <- & He).
    now apply Hunit.
  - exists avg. split; [assumption |]. split.
    + unfold clusters_score64. now rewrite Havg.
    + apply mul_nonneg; [assumption | apply log10_nonneg; lia].
Qed.

Lemma choose_step64_number (a0 : Z) (m0 : R) (cid : Z) (c : list Element)
    (s : R) :
  clusters_score64 mean log10 mul c = fin s ->
  choose_step64 mean log10 mul (a0, fin m0) (cid, c) =
  if Rgt_dec s m0 then (cid, fin s) else (a0, fin m0).
Proof.
  intros Hs. unfold choose_step64. rewrite Hs. cbn [float_gt].
  now destruct (Rgt_dec s m0).
Qed.

(** The scoring loop from a carried maximum [m0], on clusters whose scores
    are numbers: either no score exceeds [m0] and the carried pair is
    unchanged, or the loop ends on the first cluster of greatest score. *)
Lemma choose_fold64 (clusters : Clusters) :
  (forall cid c, In (cid, c) clusters ->
     exists s, clusters_score64 mean log10 mul c = fin s) ->
  forall (a0 : Z) (m0 : R),
    (fold_left (choose_step64 mean log10 mul) clusters (a0, fin m0)
       = (a0, fin m0) /\
     forall cid c s, In (cid, c) clusters ->
       clusters_score64 mean log10 mul c = fin s -> (s <= m0)%R) \/
    (exists pre cid best post m,
        clusters = pre ++ (cid, best) :: post /\
        fold_left (choose_step64 mean log10 mul) clusters (a0, fin m0)
          = (cid, fin m) /\
        clusters_score64 mean log10 mul best = fin m /\
        (m0 < m)%R /\
        (forall k c, In (k, c) pre ->
           exists s, clusters_score64 mean log10 mul c = fin s /\ (s < m)%R) /\
        (forall k c, In (k, c) post ->
           exists s, clusters_score64 mean log10 mul c = fin s /\ (s <= m)%R)).
Proof.
  induction clusters as [| [cid c] rest IH]; intros Hnum a0 m0.
  - left. split; [reflexivity | intros ? ? ? []].
  - assert (forall k c', In (k, c') rest ->
              exists s, clusters_score64 mean log10 mul c' = fin s) as Hrest
        by (intros k c' Hin; apply (Hnum k); now right).
    specialize (IH Hrest).
    destruct (Hnum cid c (or_introl eq_refl)) as [s Hs].
    cbn [fold_left]. rewrite (@choose_step64_number a0 m0 cid c s Hs).
    destruct (Rgt_dec s m0) as [Hgt | Hle].
    + right. destruct (IH cid s)
        as [[Hfold Hall]
           | (pre & k & best & post & m & -> & Hfold & Hm & Hlt & Hpre
              & Hpost)].
      * exists [], cid, c, rest, s.
        split; [reflexivity |]. split; [assumption |].
        split; [assumption |]. split; [lra |].
        split; [intros ? ? [] |].
        intros k c' Hin. destruct (Hrest k c' Hin) as [s' Hs'].
        exists s'. split; [assumption | now apply (Hall k c')].
      * exists ((cid, c) :: pre), k, best, post, m.
        split; [reflexivity |]. split; [assumption |].
        split; [assumption |]. split; [lra |]. split; [| assumption].
        intros k' c' [[= <- <-] | Hin]; [| eauto].
        exists s. split; [assumption | lra].
    + destruct (IH a0 m0)
        as [[Hfold Hall]
           | (pre & k & best & post & m & -> & Hfold & Hm & Hlt & Hpre
              & Hpost)].
      * left. split; [assumption |].
        intros k c' s' [[= <- <-] | Hin] Hs'; [| eauto].
        rewrite Hs in Hs'. injection Hs' as <-. lra.
      * right. exists ((cid, c) :: pre), k, best, post, m.
        split; [reflexivity |]. split; [assumption |].
        split; [assumption |]. split; [assumption |].
        split; [| assumption].
        intros k' c' [[= <- <-] | Hin]; [| eauto].
        exists s. split; [assumption | lra].
Qed.

(** C5. Whatever the rounding of [np.mean], [np.log10] and the product is,
    on a non-empty mapping of non-empty clusters with similarities between
    0 and 1, every cluster is scored by the product of the mean of its
    members' similarities and [log10] of its size plus one, and the scorer
    returns the first cluster, in the iteration order of the mapping, whose
    score no other cluster exceeds: the clusters before it score strictly
    less, the clusters after it score at most as much. *)
Theorem choose_best_cluster64_first_maximum :
  forall (clusters : Clusters),
    clusters <> [] ->
    NoDup (Dict.keys clusters) ->
    (forall cid c, In (cid, c) clusters ->
       c <> [] /\
       forall e, In e c -> (0 <= similarity_with_siblings e <= 1)%R) ->
    (forall cid c, In (cid, c) clusters ->
       exists avg,
         mean (map similarity_with_siblings c) = fin avg /\
         clusters_score64 mean log10 mul c
           = fin (mul avg (log10 (List.length c + 1)))) /\
    exists pre cid best post m,
      clusters = pre ++ (cid, best) :: post /\
      _choose_best_cluster64 mean log10 mul clusters = Return best /\
      clusters_score64 mean log10 mul best = fin m /\
      (forall k c, In (k, c) pre ->
         exists s, clusters_score64 mean log10 mul c = fin s /\ (s < m)%R) /\
      (forall k c, In (k, c) post ->
         exists s, clusters_score64 mean log10 mul c = fin s /\ (s <= m)%R).
Proof.
  intros clusters Hne Hnd Hwf.
  assert (forall cid c, In (cid, c) clusters ->
            exists avg,
              mean (map similarity_with_siblings c) = fin avg /\
              clusters_score64 mean log10 mul c
                = fin (mul avg (log10 (List.length c + 1))) /\
              (0 <= mul avg (log10 (List.length c + 1)))%R) as Hscore.
  { intros cid c Hin. destruct (Hwf cid c Hin) as [Hc Hunit].
    now apply clusters_score64_number. }
  split.
  { intros cid c Hin. destruct (Hscore cid c Hin) as (avg & Havg & Hs & _).
    now exists avg. }
  assert (forall cid c, In (cid, c) clusters ->
            exists s, clusters_score64 mean log10 mul c = fin s) as Hnum.
  { intros cid c Hin. destruct (Hscore cid c Hin) as (avg & _ & Hs & _).
    eexists. exact Hs. }
  destruct (choose_fold64 clusters Hnum 0%Z (-1)%R)
    as [[_ Hall]
       | (pre & cid & best & post & m & Heq & Hfold & Hm & _ & Hpre & Hpost)].
  - exfalso. destruct clusters as [| [cid c] rest]; [now elim Hne |].
    destruct (Hscore cid c (or_introl eq_refl)) as (avg & _ & Hs & Hpos).
    pose proof (Hall cid c _ (or_introl eq_refl) Hs) as Hle. lra.
  - exists pre, cid, best, post, m.
    split; [assumption |]. split; [| split; [| split]; assumption].
    unfold _choose_best_cluster64, clusters_score_arg_max64.
    rewrite Hfold. cbn [fst]. rewrite Heq, get_middle; [reflexivity |].
    rewrite Heq in Hnd. unfold Dict.keys in Hnd. rewrite map_app in Hnd.
    apply NoDup_remove_2 in Hnd. intros Hin. apply Hnd.
    apply in_or_app. now left.
Qed.
End Scorer64.

Lemma choose_best_cluster64_first_maximum_witness :
  exists pre cid best post m,
    sample_clusters = pre ++ (cid, best) :: post /\
    _choose_best_cluster64 np_mean exact_log10 Rmult sample_clusters
      = Return best /\
    clusters_score64 np_mean exact_log10 Rmult best = fin m /\
    (forall k c, In (k, c) pre ->
       exists s, clusters_score64 np_mean exact_log10 Rmult c = fin s /\
                 (s < m)%R) /\
    (forall k c, In (k, c) post ->
       exists s, clusters_score64 np_mean exact_log10 Rmult c = fin s /\
                 (s <= m)%R).
Proof.
  refine (proj2 (@choose_best_cluster64_first_maximum
                   np_mean exact_log10 Rmult
                   exact_mean_of_unit exact_log10_nonneg Rmult_le_pos
                   sample_clusters _ _ _)).
  - discriminate.
  - repeat constructor; simpl; intuition discriminate.
  - intros cid c Hin. simpl in Hin.
    destruct Hin as [[= <- <-] | [[= <- <-] | [[= <- <-] | []]]];
      (split; [discriminate |]); intros e He; simpl in He;
      repeat (destruct He as [<- | He]; [simpl; lra |]); destruct He.
Defined.

(** On [sample_clusters] the second and third clusters tie above the first
    one, and the second, met first, is returned. *)
Lemma sample_clusters_choice :
  _choose_best_cluster sample_clusters =
  Return [item_under "html>body>ul" []; item_under "html>body>ul" []].
Proof.
  assert (np_log10 1 = 0)%R as H1 by (unfold np_log10; rewrite ln_1; lra).
  assert (np_log10 1 < np_log10 (1 + 1))%R as H2
      by (apply np_log10_increasing; lra).
  assert (np_log10 (1 + 1) < np_log10 (1 + 1 + 1))%R as H3
      by (apply np_log10_increasing; lra).
  unfold _choose_best_cluster, clusters_score_arg_max, sample_clusters.
  cbn [fold_left]. unfold choose_step.
  rewrite !clusters_score_spec by discriminate.
  unfold spec_score.
  cbn [map List.length similarity_with_siblings item_under Rsum fold_right INR
       float_gt].
  destruct (Rgt_dec _ _) as [_ | Hn]; [| exfalso; lra].
  cbn [float_gt].
  destruct (Rgt_dec _ _) as [_ | Hn]; [| exfalso; lra].
  cbn [float_gt].
  destruct (Rgt_dec _ _) as [Hgt | _]; [exfalso; lra |].
  reflexivity.
Qed.

(** ** The vote on the title path *)

Lemma probability_closer_greater (self : ListExtractor) (x y : R) :
  ((x - avg_length self) ^ 2 < (y - avg_length self) ^ 2)%R ->
  (_probability_of_title_with_length self y
   < _probability_of_title_with_length self x)%R.
Proof.
  intros Hcloser. unfold _probability_of_title_with_length.
  apply Rmult_lt_compat_r.
  - apply Rinv_0_lt_compat, gauss_denominator_pos.
  - apply exp_increasing. unfold sigma. lra.
Qed.

Lemma fold_vote_keys (self : ListExtractor) (l : list AnchorDescendant)
    (probs : Dict.t string (list R)) :
  fold_left (vote self) l probs =
  fold_left (vote_on self) (map vote_key l) probs.
Proof.
  revert probs. induction l as [| a l IH]; intros probs; simpl;
    [reflexivity | apply IH].
Qed.

Lemma best_path_of_keys (self : ListExtractor)
    (cluster cluster' : list Element) :
  map vote_key (anchors_of cluster) = map vote_key (anchors_of cluster') ->
  best_path_of self cluster = best_path_of self cluster'.
Proof.
  intros Hkeys. unfold best_path_of, probabilities_of_title_avg.
  now rewrite !probabilities_flat, !fold_vote_keys, Hkeys.
Qed.

Lemma voting_best_path :
  best_path_of list_extractor voting_cluster = Return "h3/a"%string.
Proof.
  unfold best_path_of, probabilities_of_title_avg.
  change (probabilities_of_title list_extractor voting_cluster)
    with [("h3/a"%string, [_probability_of_title_with_length list_extractor
                             (INR 21)]);
          ("a"%string, [_probability_of_title_with_length list_extractor
                          (INR 4)])].
  cbn [map fst snd np_mean max_by_value bind fold_left Rsum fold_right
       List.length].
  unfold max_step. cbn [snd float_gt].
  destruct (Rgt_dec _ _) as [Hgt | _]; [exfalso | reflexivity].
  assert (_probability_of_title_with_length list_extractor (INR 4)
          < _probability_of_title_with_length list_extractor (INR 21))%R
    as Hlt.
  { apply probability_closer_greater.
    unfold avg_length, list_extractor, LIST_MIN_LENGTH, LIST_MAX_LENGTH.
    rewrite !INR_IZR_INZ. simpl. clear Hgt. lra. }
  change (INR 1) with 1%R in Hgt. lra.
Qed.

Lemma get_map_values (A B : Type) (f : A -> B) (d : Dict.t string A)
    (k : string) :
  Dict.get String.eqb (map (fun kv => (fst kv, f (snd kv))) d) k =
  option_map f (Dict.get String.eqb d k).
Proof.
  induction d as [| [k0 v0] d IH]; simpl; [reflexivity |].
  now destruct (k0 =? k)%string.
Qed.

(** The votes filed under a path are the likelihoods of all the anchors on
    that path, in order. *)
Lemma votes_of_path (self : ListExtractor) (l : list AnchorDescendant)
    (p : string) :
  Dict.get String.eqb (fold_left (vote self) l []) p =
  match filter (fun a => (path a =? p)%string) l with
  | [] => None
  | on_path =>
      Some (map (fun a => _probability_of_title_with_length self
                            (INR (String.length (text a)))) on_path)
  end.
Proof.
  induction l as [| a l IH] using rev_ind; [reflexivity |].
  rewrite fold_left_app, filter_app. cbn [fold_left filter].
  unfold vote at 1. rewrite (get_append_to String.eqb_spec).
  destruct (String.eqb_spec (path a) p) as [Hpath | Hpath].
  - rewrite Hpath, IH.
    destruct (filter _ l) as [| b on_path]; [reflexivity |].
    cbn [app]. now rewrite app_comm_cons, map_app.
  - rewrite IH, app_nil_r. reflexivity.
Qed.

(** C10. The mean likelihood of a path is taken over all the anchors of the
    cluster on that path, with or without [href]; the best path depends on
    the paths and texts of the anchors only; and an anchor without [href]
    can decide the vote: on [voting_cluster] the headline anchor wins and
    nothing is extracted, while without it the pager link wins and is
    extracted. *)
Theorem title_vote_counts_every_anchor :
  forall (self : ListExtractor) (cluster : list Element),
    (forall p,
        Dict.get String.eqb (probabilities_of_title_avg self cluster) p =
        match filter (fun a => (path a =? p)%string) (anchors_of cluster) with
        | [] => None
        | on_path =>
            Some (np_mean
                    (map (fun a => _probability_of_title_with_length self
                                     (INR (String.length (text a))))
                         on_path))
        end) /\
    (forall cluster',
        map (fun a => (path a, text a)) (anchors_of cluster) =
        map (fun a => (path a, text a)) (anchors_of cluster') ->
        best_path_of self cluster = best_path_of self cluster') /\
    (Dict.get String.eqb (attrib headline_anchor) "href"%string = None /\
     best_path_of list_extractor voting_cluster
       = Return (path headline_anchor) /\
     _extract_from_cluster list_extractor voting_cluster = Return [] /\
     best_path_of list_extractor voting_cluster_without_headline
       = Return (path pager_anchor) /\
     _extract_from_cluster list_extractor voting_cluster_without_headline
       = Return [{| title := "Next"; url := "/page/2" |}]).
Proof.
  intros self cluster. split; [| split].
  - intros p. unfold probabilities_of_title_avg.
    rewrite get_map_values, probabilities_flat, votes_of_path.
    now destruct (filter _ (anchors_of cluster)).
  - intros cluster'. apply best_path_of_keys.
  - split; [reflexivity |]. split; [exact voting_best_path |].
    split; [| split; reflexivity].
    unfold _extract_from_cluster. now rewrite voting_best_path.
Qed.

(** * Further properties of the extractor *)

(** ** The shape of the likelihood *)

(** X2. The likelihood is symmetric about [avg_length]; in particular the
    two ends of the configured length range are equally likely. *)
Theorem probability_symmetric :
  forall (self : ListExtractor) (d : R),
    _probability_of_title_with_length self (avg_length self + d)
      = _probability_of_title_with_length self (avg_length self - d) /\
    _probability_of_title_with_length self (IZR (min_length self))
      = _probability_of_title_with_length self (IZR (max_length self)).
Proof.
  intros self d. unfold _probability_of_title_with_length. split.
  - do 2 f_equal. unfold sigma. field.
  - do 2 f_equal. unfold avg_length, sigma. field.
Qed.

Lemma exp_monotone (a b : R) : (a <= b)%R -> (exp a <= exp b)%R.
Proof.
  intros [Hlt | ->]; [left; now apply exp_increasing | right; reflexivity].
Qed.

(** X3. Of two lengths, the one that is at least as close to [avg_length]
    is at least as likely: the likelihood never grows with the distance
    from [avg_length]. *)
Theorem probability_closer_at_least :
  forall (self : ListExtractor) (x y : R),
    ((x - avg_length self) ^ 2 <= (y - avg_length self) ^ 2)%R ->
    (_probability_of_title_with_length self y
     <= _probability_of_title_with_length self x)%R.
Proof.
  intros self x y Hcloser. unfold _probability_of_title_with_length.
  apply Rmult_le_compat_r.
  - left. apply Rinv_0_lt_compat, gauss_denominator_pos.
  - apply exp_monotone. unfold sigma. lra.
Qed.

Lemma probability_closer_at_least_witness :
  (_probability_of_title_with_length list_extractor 4
   <= _probability_of_title_with_length list_extractor 21)%R.
Proof.
  apply (@probability_closer_at_least list_extractor 21 4).
  unfold avg_length, list_extractor, LIST_MIN_LENGTH, LIST_MAX_LENGTH.
  simpl. lra.
Defined.

(** ** The candidate filter as a grouping *)

Lemma build_step_passes (self : ListExtractor) (tree : Tree) (d : Element) :
  build_step self tree d =
  if passes self d
  then Dict.append_to String.eqb tree (parent_selector d) d
  else tree.
Proof.
  unfold build_step, passes.
  destruct (number_of_siblings d + 1 <? min_number self)%Z; [reflexivity |].
  destruct (a_descendants_group_text_min_length d >? max_length self)%Z;
    [reflexivity |].
  destruct (a_descendants_group_text_max_length d <? min_length self)%Z;
    [reflexivity |].
  now destruct (Rlt_dec _ _).
Qed.

Lemma candidate_tree_rejects_all (self : ListExtractor) (ds : list Element) :
  (forall d, In d ds -> passes self d = false) -> candidate_tree self ds = [].
Proof.
  induction ds as [| x ds IH] using rev_ind; intros Hall; [reflexivity |].
  rewrite candidate_tree_snoc, build_step_passes.
  rewrite (Hall x) by (apply in_or_app; right; now left).
  apply IH. intros d Hd. apply Hall, in_or_app. now left.
Qed.

Lemma build_step_grows (self : ListExtractor) (tree : Tree) (d : Element) :
  tree <> [] \/ passes self d = true -> build_step self tree d <> [].
Proof.
  rewrite build_step_passes. intros [Hne | Hpass].
  - destruct (passes self d); [| assumption].
    destruct tree as [| [k g] tree]; [now elim Hne |].
    simpl. destruct (k =? parent_selector d)%string; discriminate.
  - rewrite Hpass. destruct tree as [| [k g] tree]; [discriminate |].
    simpl. destruct (k =? parent_selector d)%string; discriminate.
Qed.

(** X4. The group that the filter files under a selector is the sequence of
    the descendants that pass the four tests and have that parent selector,
    in document order and with repetitions; a selector without such a
    descendant is not a key of the mapping. *)
Theorem candidate_group_in_order :
  forall (self : ListExtractor) (descendants : list Element)
         (selector : string),
    Dict.get String.eqb (candidate_tree self descendants) selector =
    match filter (fun d => passes self d
                           && (parent_selector d =? selector)%string)
                 descendants with
    | [] => None
    | group => Some group
    end.
Proof.
  intros self ds selector.
  induction ds as [| x ds IH] using rev_ind; [reflexivity |].
  rewrite candidate_tree_snoc, build_step_passes, filter_app.
  cbn [filter].
  destruct (passes self x); cbn [andb].
  - rewrite (get_append_to String.eqb_spec).
    destruct (String.eqb_spec (parent_selector x) selector) as [Hsel | Hsel].
    + rewrite Hsel, IH.
      destruct (filter _ ds) as [| y group]; reflexivity.
    + now rewrite IH, app_nil_r.
  - now rewrite IH, app_nil_r.
Qed.

(** X5. The filter returns the empty mapping exactly when no descendant
    passes the four tests. *)
Theorem candidate_tree_empty_iff :
  forall (self : ListExtractor) (descendants : list Element),
    candidate_tree self descendants = [] <->
    (forall d, In d descendants -> passes self d = false).
Proof.
  intros self ds. split; [| apply candidate_tree_rejects_all].
  induction ds as [| x ds IH] using rev_ind; [intros _ d [] |].
  rewrite candidate_tree_snoc. intros Hempty d Hd.
  destruct (passes self x) eqn:Hx.
  - exfalso. apply (@build_step_grows self (candidate_tree self ds) x);
      [now right | assumption].
  - rewrite build_step_passes, Hx in Hempty.
    apply in_app_or in Hd. destruct Hd as [Hd | [<- | []]];
      [now apply IH | assumption].
Qed.

(** ** The cut as a filter *)

Section DictFilterFacts.
Variable K : Type.
Variable eqb : K -> K -> bool.
Hypothesis eqb_spec : forall a b, reflect (a = b) (eqb a b).
Variable V : Type.

Lemma filter_all (A : Type) (f : A -> bool) (l : list A) :
  (forall a, In a l -> f a = true) -> filter f l = l.
Proof.
  induction l as [| a l IH]; intros Hall; simpl; [reflexivity |].
  rewrite (Hall a) by now left.
  f_equal. apply IH. intros b Hb. apply Hall. now right.
Qed.

Lemma filter_twice (A : Type) (f g : A -> bool) (l : list A) :
  filter f (filter g l) = filter (fun a => g a && f a) l.
Proof.
  induction l as [| a l IH]; simpl; [reflexivity |].
  destruct (g a); simpl; [destruct (f a) |]; now rewrite IH.
Qed.

Lemma del_filter (d : Dict.t K V) (x : K) :
  NoDup (Dict.keys d) ->
  Dict.del eqb d x = filter (fun kv => negb (eqb (fst kv) x)) d.
Proof.
  induction d as [| [k0 v0] d IH]; simpl; intros Hnd; [reflexivity |].
  inversion Hnd as [| ? ? Hnotin Hnd']; subst.
  destruct (eqb_spec k0 x) as [-> | Hne]; simpl.
  - symmetry. apply filter_all. intros [k v] Hkv. simpl.
    destruct (eqb_spec k x) as [-> | _]; [| reflexivity].
    elim Hnotin. apply in_map_iff. now exists (x, v).
  - now rewrite IH.
Qed.

Lemma keys_filter (keep : K -> bool) (d : Dict.t K V) (k : K) :
  In k (Dict.keys (filter (fun kv => keep (fst kv)) d)) <->
  In k (Dict.keys d) /\ keep k = true.
Proof.
  unfold Dict.keys. rewrite !in_map_iff. split.
  - intros ([k' v] & <- & Hin). apply filter_In in Hin.
    destruct Hin as [Hin Hkeep]. split; [| assumption].
    now exists (k', v).
  - intros (([k' v] & <- & Hin) & Hkeep). exists (k', v).
    split; [reflexivity |]. apply filter_In. now split.
Qed.

Lemma get_In (d : Dict.t K V) (k : K) (v : V) :
  Dict.get eqb d k = Some v -> In (k, v) d.
Proof.
  induction d as [| [k0 v0] d IH]; simpl; [discriminate |].
  destruct (eqb_spec k0 k) as [-> | _].
  - intros [= ->]. now left.
  - intros Hget. right. now apply IH.
Qed.

Lemma In_keys_get (d : Dict.t K V) (k : K) :
  In k (Dict.keys d) -> exists v, Dict.get eqb d k = Some v.
Proof.
  induction d as [| [k0 v0] d IH]; simpl; [intros [] |].
  destruct (eqb_spec k0 k) as [-> | Hne].
  - intros _. now exists v0.
  - intros [Heq | Hin]; [contradiction | now apply IH].
Qed.
End DictFilterFacts.

Arguments del_filter [K eqb] eqb_spec [V] d x.
Arguments get_In [K eqb] eqb_spec [V] d k v.
Arguments In_keys_get [K eqb] eqb_spec [V] d k.

Lemma extended_in_iff (selectors : list string) (k : string) :
  extended_in selectors k = true <-> has_extension selectors k.
Proof.
  unfold extended_in, has_extension, strict_prefix.
  rewrite existsb_exists. split.
  - intros (q & Hq & Hc). apply andb_prop in Hc. destruct Hc as [Hpre Hne].
    exists q. repeat split; try assumption.
    intros ->. now rewrite String.eqb_refl in Hne.
  - intros (q & Hq & Hpre & Hne). exists q. split; [assumption |].
    rewrite Hpre. cbn [andb].
    destruct (String.eqb_spec q k) as [-> | _]; [now elim Hne | reflexivity].
Qed.

Lemma survives_iff (selectors : list string) (k : string) :
  survives selectors k = true <->
  k = ""%string \/ ~ has_extension selectors k.
Proof.
  unfold survives. rewrite <- extended_in_iff.
  destruct k as [| c k]; simpl; [intuition |].
  destruct (extended_in selectors (String c k)); simpl; split;
    try intuition congruence.
Qed.

Lemma cut_tree_keys_iff (tree : Tree) (k : string) :
  NoDup (Dict.keys tree) ->
  In k (Dict.keys (cut_tree tree)) <->
  In k (Dict.keys tree) /\ survives (Dict.keys tree) k = true.
Proof.
  intros Hnd. rewrite cut_tree_fold_right, survives_iff.
  rewrite (run_keys tree Hnd k (ascending_sorted _) (NoDup_sorted Hnd)).
  rewrite In_sorted.
  assert (has_extension (sorted (Dict.keys tree)) k <->
          has_extension (Dict.keys tree) k) as ->.
  { split; intros (q & Hq & Hpre); exists q; (split; [| assumption]);
      now apply In_sorted. }
  destruct (string_dec k "") as [-> | Hne]; tauto.
Qed.

Lemma cut_run_is_filter (tree : Tree) :
  NoDup (Dict.keys tree) ->
  forall L, exists keep : string -> bool,
    fst (cut_run tree L) = filter (fun kv => keep (fst kv)) tree.
Proof.
  intros Hnd. induction L as [| x L [keep IH]].
  - exists (fun _ => true). symmetry. now apply filter_all.
  - rewrite run_cons. destruct (cut_cond (hd_error L) x).
    + exists (fun k => keep k && negb (k =? x)%string).
      rewrite (del_filter String.eqb_spec) by now apply run_NoDup.
      rewrite IH. apply filter_twice.
    + now exists keep.
Qed.

(** X6. On a mapping without repeated selectors the cut is one filter: it
    keeps, in their order and with their groups, the entries whose selector
    is empty or is not extended by another selector of the mapping. *)
Theorem cut_tree_is_filter :
  forall (tree : Tree),
    NoDup (Dict.keys tree) ->
    cut_tree tree =
    filter (fun kv => survives (Dict.keys tree) (fst kv)) tree.
Proof.
  intros tree Hnd.
  destruct (cut_run_is_filter tree Hnd (sorted (Dict.keys tree)))
    as [keep Hkeep].
  rewrite <- cut_tree_fold_right in Hkeep. rewrite Hkeep.
  apply filter_ext_in. intros [k v] Hkv. cbn [fst].
  assert (In k (Dict.keys tree)) as Hk
      by (apply in_map_iff; now exists (k, v)).
  pose proof (cut_tree_keys_iff tree k Hnd) as Hiff.
  rewrite Hkeep, keys_filter in Hiff.
  destruct (keep k), (survives (Dict.keys tree) k); try reflexivity.
  - destruct (proj1 Hiff (conj Hk eq_refl)) as [_ Habs]. discriminate.
  - destruct (proj2 Hiff (conj Hk eq_refl)) as [_ Habs]. discriminate.
Qed.

Lemma cut_tree_is_filter_witness :
  cut_tree (candidate_tree list_extractor sample_descendants) =
  filter (fun kv => survives
                      (Dict.keys (candidate_tree list_extractor
                                    sample_descendants)) (fst kv))
         (candidate_tree list_extractor sample_descendants).
Proof.
  apply (cut_tree_is_filter
           (candidate_tree list_extractor sample_descendants)).
  apply NoDup_keys_candidate_tree.
Defined.

Lemma cut_run_fixed (tree : Tree) (L : list string) :
  ascending L -> NoDup L ->
  (forall k, In k L -> k <> ""%string -> ~ has_extension L k) ->
  fst (cut_run tree L) = tree.
Proof.
  induction L as [| x L IH]; intros Hasc Hnd Hfree; [reflexivity |].
  rewrite run_cons.
  destruct (cut_cond (hd_error L) x) eqn:Hcond.
  - exfalso. apply (cut_cond_head Hasc Hnd) in Hcond.
    destruct Hcond as [Hne Hext]. now apply (Hfree x (or_introl eq_refl)).
  - apply StronglySorted_inv in Hasc. destruct Hasc as [HascL _].
    inversion Hnd as [| ? ? _ HndL]; subst.
    apply IH; try assumption.
    intros k Hk Hne (q & Hq & Hpre).
    apply (Hfree k (or_intror Hk) Hne). exists q.
    split; [now right | assumption].
Qed.

Lemma cut_tree_fixed (tree : Tree) :
  (forall k, In k (Dict.keys tree) -> survives (Dict.keys tree) k = true) ->
  NoDup (Dict.keys tree) ->
  cut_tree tree = tree.
Proof.
  intros Hall Hnd. rewrite cut_tree_fold_right.
  apply cut_run_fixed; [apply ascending_sorted | now apply NoDup_sorted |].
  intros k Hk Hne (q & Hq & Hpre).
  apply (proj1 (In_sorted _ _)) in Hk. apply (proj1 (In_sorted _ _)) in Hq.
  destruct (proj1 (survives_iff _ _) (Hall k Hk)) as [-> | Hfree];
    [congruence |].
  apply Hfree. now exists q.
Qed.

Lemma NoDup_keys_cut_tree (tree : Tree) :
  NoDup (Dict.keys tree) -> NoDup (Dict.keys (cut_tree tree)).
Proof. intros Hnd. rewrite cut_tree_fold_right. now apply run_NoDup. Qed.

(** X7. Cutting twice is cutting once. *)
Theorem cut_tree_idempotent :
  forall (tree : Tree),
    NoDup (Dict.keys tree) ->
    cut_tree (cut_tree tree) = cut_tree tree.
Proof.
  intros tree Hnd.
  apply cut_tree_fixed; [| now apply NoDup_keys_cut_tree].
  intros k Hk. apply (cut_tree_keys_iff tree k Hnd) in Hk.
  destruct Hk as [_ Hk]. apply survives_iff. apply survives_iff in Hk.
  destruct Hk as [-> | Hfree]; [now left | right].
  intros (q & Hq & Hpre). apply Hfree. exists q. split; [| assumption].
  now apply (cut_tree_keys_iff tree q Hnd) in Hq.
Qed.

Lemma cut_tree_idempotent_witness :
  cut_tree (cut_tree (candidate_tree list_extractor sample_descendants)) =
  cut_tree (candidate_tree list_extractor sample_descendants).
Proof.
  apply (cut_tree_idempotent
           (candidate_tree list_extractor sample_descendants)).
  apply NoDup_keys_candidate_tree.
Defined.

Lemma greatest_selector (l : list string) :
  l <> [] ->
  exists m, In m l /\ forall q, In q l -> (q <=? m)%string = true.
Proof.
  induction l as [| x l IH]; intros Hne; [now elim Hne |].
  destruct l as [| y l].
  - exists x. split; [now left |]. intros q [<- | []]. apply leb_refl.
  - destruct IH as (m & Hm & Hmax); [discriminate |].
    destruct (String.leb_total x m) as [Hxm | Hmx].
    + exists m. split; [now right |].
      intros q [<- | Hq]; [assumption | now apply Hmax].
    + exists x. split; [now left |].
      intros q [<- | Hq]; [apply leb_refl |].
      apply leb_trans with (s2 := m); [now apply Hmax | assumption].
Qed.

(** X8. The greatest selector of a non-empty mapping always survives the
    cut, so the cut of a non-empty mapping is not empty. *)
Theorem cut_tree_keeps_greatest :
  forall (tree : Tree),
    NoDup (Dict.keys tree) ->
    tree <> [] ->
    cut_tree tree <> [] /\
    exists m,
      In m (Dict.keys tree) /\
      (forall q, In q (Dict.keys tree) -> (q <=? m)%string = true) /\
      In m (Dict.keys (cut_tree tree)).
Proof.
  intros tree Hnd Hne.
  destruct (greatest_selector (l := Dict.keys tree)) as (m & Hm & Hmax).
  { destruct tree; [now elim Hne | discriminate]. }
  assert (In m (Dict.keys (cut_tree tree))) as Hkept.
  { apply (cut_tree_keys_iff tree m Hnd). split; [assumption |].
    apply survives_iff. right. intros (q & Hq & Hpre & Hmq).
    apply Hmq. apply String.leb_antisym; [now apply prefix_leb |].
    now apply Hmax. }
  split.
  - intros Hempty. rewrite Hempty in Hkept. destruct Hkept.
  - now exists m.
Qed.

Lemma cut_tree_keeps_greatest_witness :
  cut_tree (candidate_tree list_extractor sample_descendants) <> [].
Proof.
  refine (proj1 (@cut_tree_keeps_greatest
                   (candidate_tree list_extractor sample_descendants)
                   (NoDup_keys_candidate_tree list_extractor
                      sample_descendants) _)).
  rewrite sample_candidate_tree. discriminate.
Defined.

(** X9. The cut leaves a mapping as it is exactly when no non-empty
    selector of the mapping is extended by another one. *)
Theorem cut_tree_unchanged_iff :
  forall (tree : Tree),
    NoDup (Dict.keys tree) ->
    cut_tree tree = tree <->
    (forall k, In k (Dict.keys tree) ->
       k = ""%string \/ ~ has_extension (Dict.keys tree) k).
Proof.
  intros tree Hnd. split.
  - intros Hsame k Hk. apply survives_iff.
    rewrite <- Hsame in Hk at 1.
    now apply (cut_tree_keys_iff tree k Hnd) in Hk.
  - intros Hall. apply cut_tree_fixed; [| assumption].
    intros k Hk. apply survives_iff. now apply Hall.
Qed.

Lemma cut_tree_unchanged_iff_witness :
  cut_tree (candidate_tree list_extractor sample_descendants)
  = candidate_tree list_extractor sample_descendants <->
  (forall k,
      In k (Dict.keys (candidate_tree list_extractor sample_descendants)) ->
      k = ""%string \/
      ~ has_extension
          (Dict.keys (candidate_tree list_extractor sample_descendants)) k).
Proof.
  apply (cut_tree_unchanged_iff
           (candidate_tree list_extractor sample_descendants)
           (NoDup_keys_candidate_tree list_extractor sample_descendants)).
Defined.

(** ** The scorer outside its intended inputs *)

Lemma choose_step_beats (a0 : Z) (m0 : npfloat) (cid : Z)
    (c : list Element) :
  choose_step (a0, m0) (cid, c) =
  if beats m0 c then (cid, clusters_score c) else (a0, m0).
Proof. reflexivity. Qed.

Lemma choose_fold_default (clusters : Clusters) (a0 : Z) (m0 : npfloat) :
  (forall cid c, In (cid, c) clusters -> beats m0 c = false) ->
  fold_left choose_step clusters (a0, m0) = (a0, m0).
Proof.
  induction clusters as [| [cid c] rest IH]; intros Hall; [reflexivity |].
  cbn [fold_left]. rewrite choose_step_beats.
  rewrite (Hall cid c) by now left.
  apply IH. intros k c' Hin. apply (Hall k). now right.
Qed.

(** The loop ends either on the pair it started from, which no cluster has
    beaten, or on the identifier of a cluster of the mapping. *)
Lemma choose_fold_cases (clusters : Clusters) (a0 : Z) (m0 : npfloat) :
  (fold_left choose_step clusters (a0, m0) = (a0, m0) /\
   forall cid c, In (cid, c) clusters -> beats m0 c = false) \/
  In (fst (fold_left choose_step clusters (a0, m0))) (Dict.keys clusters).
Proof.
  revert a0 m0. induction clusters as [| [cid c] rest IH]; intros a0 m0.
  - left. split; [reflexivity | intros ? ? []].
  - cbn [fold_left]. rewrite choose_step_beats.
    destruct (beats m0 c) eqn:Hbeats.
    + right. destruct (IH cid (clusters_score c)) as [[-> _] | Hin].
      * now left.
      * now right.
    + destruct (IH a0 m0) as [[Hfold Hall] | Hin].
      * left. split; [assumption |].
        intros k c' [[= <- <-] | Hin']; [assumption | eauto].
      * right. now right.
Qed.

(** X10. The scorer raises only [KeyError(0)], and exactly when 0 is not a
    cluster identifier and no cluster scores above the initial maximum -1. *)
Theorem choose_best_cluster_raises_iff :
  forall (clusters : Clusters) (e : exception),
    _choose_best_cluster clusters = Raise e <->
    e = KeyError 0 /\
    Dict.get Z.eqb clusters 0%Z = None /\
    (forall cid c, In (cid, c) clusters -> beats (fin (-1)) c = false).
Proof.
  intros clusters e. unfold _choose_best_cluster, clusters_score_arg_max.
  split.
  - destruct (choose_fold_cases clusters 0%Z (fin (-1)))
      as [[Hfold Hall] | Hin].
    + rewrite Hfold. cbn [fst].
      destruct (Dict.get Z.eqb clusters 0%Z); [discriminate |].
      intros [= <-]. auto.
    + destruct (In_keys_get Z.eqb_spec clusters _ Hin) as [best ->].
      discriminate.
  - intros (-> & Hget & Hall).
    rewrite (choose_fold_default clusters 0%Z (fin (-1)) Hall).
    cbn [fst]. now rewrite Hget.
Qed.

(** X11. When no cluster scores above the initial maximum -1, as when
    every cluster is empty, the scorer falls back on the identifier 0: it
    returns the cluster filed under 0 if there is one, and raises
    [KeyError(0)] otherwise. *)
Theorem choose_best_cluster_default_zero :
  forall (clusters : Clusters),
    (forall cid c, In (cid, c) clusters -> beats (fin (-1)) c = false) ->
    beats (fin (-1)) [] = false /\
    _choose_best_cluster clusters =
    match Dict.get Z.eqb clusters 0%Z with
    | Some cluster => Return cluster
    | None => Raise (KeyError 0)
    end.
Proof.
  intros clusters Hall. split.
  - reflexivity.
  - unfold _choose_best_cluster, clusters_score_arg_max.
    now rewrite (choose_fold_default clusters 0%Z (fin (-1)) Hall).
Qed.

Lemma choose_best_cluster_default_zero_witness :
  _choose_best_cluster [(0%Z, []); (1%Z, [])] = Return [] /\
  _choose_best_cluster [(1%Z, [])] = Raise (KeyError 0).
Proof.
  split.
  - refine (proj2 (@choose_best_cluster_default_zero
                     [(0%Z, []); (1%Z, [])] _)).
    intros cid c [[= <- <-] | [[= <- <-] | []]]; reflexivity.
  - refine (proj2 (@choose_best_cluster_default_zero [(1%Z, [])] _)).
    intros cid c [[= <- <-] | []]; reflexivity.
Defined.

(** ** The winner of the vote *)

Lemma likelihood_vote (self : ListExtractor) (probs : Dict.t string (list R))
    (a : AnchorDescendant) :
  vote self probs a =
  Dict.append_to String.eqb probs (path a) (likelihood self a).
Proof. reflexivity. Qed.

Lemma append_to_entries (d : Dict.t string (list R)) (k0 : string) (x : R) :
  (forall k v, In (k, v) d -> v <> []) ->
  forall k v, In (k, v) (Dict.append_to String.eqb d k0 x) -> v <> [].
Proof.
  induction d as [| [k1 v1] d IH]; intros Hd k v; simpl.
  - intros [[= _ <-] | []]. discriminate.
  - destruct (k1 =? k0)%string.
    + intros [[= _ <-] | Hin].
      * destruct v1; discriminate.
      * apply (Hd k). now right.
    + intros [[= <- <-] | Hin].
      * apply (Hd k1). now left.
      * apply IH with (k := k); [| assumption].
        intros k' v' Hin'. apply (Hd k'). now right.
Qed.

Lemma fold_vote_entries_nonempty (self : ListExtractor)
    (l : list AnchorDescendant) (probs : Dict.t string (list R)) :
  (forall k v, In (k, v) probs -> v <> []) ->
  forall k v, In (k, v) (fold_left (vote self) l probs) -> v <> [].
Proof.
  revert probs. induction l as [| a l IH]; intros probs Hprobs; simpl.
  - assumption.
  - apply IH. rewrite likelihood_vote. now apply append_to_entries.
Qed.

Lemma In_get_some (V : Type) (d : Dict.t string V) (k : string) (v : V) :
  In (k, v) d -> Dict.get String.eqb d k <> None.
Proof.
  induction d as [| [k1 v1] d IH]; simpl; [intros [] |].
  destruct (String.eqb_spec k1 k); [discriminate |].
  intros [[= -> _] | Hin]; [congruence | now apply IH].
Qed.

(** Every path of the vote has at least one likelihood filed under it, and
    is the path of an anchor. *)
Lemma fold_vote_entries (self : ListExtractor) (l : list AnchorDescendant)
    (p : string) (votes : list R) :
  In (p, votes) (fold_left (vote self) l []) ->
  votes <> [] /\ exists a, In a l /\ path a = p.
Proof.
  intros Hin. split.
  - apply (@fold_vote_entries_nonempty self l [] (fun _ _ H => match H with end)
             p votes Hin).
  - apply In_get_some in Hin. rewrite votes_of_path in Hin.
    destruct (filter _ l) as [| a on_path] eqn:Hfilter; [now elim Hin |].
    assert (In a (filter (fun a => (path a =? p)%string) l)) as Ha
        by (rewrite Hfilter; now left).
    apply filter_In in Ha. destruct Ha as [Ha Hp].
    exists a. split; [assumption | now apply String.eqb_eq].
Qed.

Lemma avg_entries_fin (self : ListExtractor) (cluster : list Element)
    (q : string) (v : npfloat) :
  In (q, v) (probabilities_of_title_avg self cluster) ->
  (exists x, v = fin x) /\ exists a, In a (anchors_of cluster) /\ path a = q.
Proof.
  unfold probabilities_of_title_avg. rewrite probabilities_flat.
  intros Hin. apply in_map_iff in Hin.
  destruct Hin as ([q' votes] & [= <- <-] & Hin). cbn [fst snd].
  apply fold_vote_entries in Hin. destruct Hin as [Hne Hanchor].
  split; [| assumption].
  rewrite (np_mean_nonempty Hne). eexists. reflexivity.
Qed.

Lemma max_fold_In (rest : list (string * npfloat))
    (first : string * npfloat) :
  In (fold_left max_step rest first) (first :: rest).
Proof.
  revert first. induction rest as [| item rest IH]; intros first.
  - now left.
  - cbn [fold_left]. unfold max_step at 2.
    destruct (float_gt (snd item) (snd first)).
    + right. apply IH.
    + destruct (IH first) as [Heq | Hin]; [now left | right; now right].
Qed.

(** X12. When the vote has a winner, the best path is the path of an anchor
    of the cluster, and every path of the vote has a number, not [nan], as
    its mean. *)
Theorem best_path_is_anchor_path :
  forall (self : ListExtractor) (cluster : list Element) (best_path : string),
    best_path_of self cluster = Return best_path ->
    (exists a, In a (anchors_of cluster) /\ path a = best_path) /\
    (forall q v, In (q, v) (probabilities_of_title_avg self cluster) ->
       exists x, v = fin x).
Proof.
  intros self cluster best_path Hbest. split.
  - unfold best_path_of in Hbest.
    destruct (probabilities_of_title_avg self cluster) as [| first rest]
      eqn:Havg; [discriminate |].
    cbn [max_by_value bind] in Hbest. injection Hbest as Hbest.
    pose proof (max_fold_In rest first) as Hin. rewrite <- Havg in Hin.
    destruct (fold_left max_step rest first) as [p v]. cbn [fst] in Hbest.
    subst p. now apply (@avg_entries_fin self cluster best_path v).
  - intros q v Hin. now apply (@avg_entries_fin self cluster q v).
Qed.

Lemma best_path_is_anchor_path_witness :
  exists a, In a (anchors_of sample_cluster) /\ path a = "a"%string.
Proof.
  refine (proj1 (@best_path_is_anchor_path list_extractor sample_cluster
                   "a"%string _)).
  reflexivity.
Defined.

(** ** Extracted links *)

(** X13. No extracted [url] starts with ["//"]: a protocol-relative link
    never leaves the extractor as it came. *)
Theorem emitted_url_not_protocol_relative :
  forall (self : ListExtractor) (cluster : list Element)
         (result : list Item) (r : Item),
    _extract_from_cluster self cluster = Return result ->
    In r result ->
    String.prefix "//" (url r) = false.
Proof.
  intros self cluster result r. unfold _extract_from_cluster.
  destruct (best_path_of self cluster) as [best_path | e]; [| discriminate].
  simpl. intros [= <-]. rewrite extract_with_flat_map.
  intros Hin. apply in_flat_map in Hin. destruct Hin as (a & Ha & Hr).
  apply contribution_In in Hr. destruct Hr as (href & _ & _ & _ & ->).
  cbn [url].
  destruct (String.prefix "//" href) eqn:Hpre; [reflexivity | assumption].
Qed.

Lemma emitted_url_not_protocol_relative_witness :
  String.prefix "//" "http://example.com/a" = false.
Proof.
  apply (@emitted_url_not_protocol_relative list_extractor sample_cluster
           sample_result
           {| title := "First headline"; url := "http://example.com/a" |}
           sample_extraction (or_introl eq_refl)).
Defined.

Lemma fold_vote_single_path (self : ListExtractor) (p : string)
    (l : list AnchorDescendant) :
  (forall a, In a l -> path a = p) ->
  forall votes,
    fold_left (vote self) l [(p, votes)] =
    [(p, votes ++ map (likelihood self) l)].
Proof.
  induction l as [| a l IH]; intros Hpath votes; simpl.
  - now rewrite app_nil_r.
  - rewrite likelihood_vote, (Hpath a) by now left.
    cbn [Dict.append_to]. rewrite String.eqb_refl.
    rewrite IH by (intros b Hb; apply Hpath; now right).
    now rewrite <- app_assoc.
Qed.

Lemma flat_map_ext_in (A B : Type) (f g : A -> list B) (l : list A) :
  (forall a, In a l -> f a = g a) -> flat_map f l = flat_map g l.
Proof.
  induction l as [| a l IH]; intros Hext; simpl; [reflexivity |].
  rewrite (Hext a) by now left.
  f_equal. apply IH. intros b Hb. apply Hext. now right.
Qed.

(** X14. When all the anchors of a cluster share one path, that path wins
    the vote whatever the lengths of the texts, and the result has one
    record for each anchor with a non-empty [href], in order. *)
Theorem single_path_extracts_every_link :
  forall (self : ListExtractor) (cluster : list Element) (p : string),
    anchors_of cluster <> [] ->
    (forall a, In a (anchors_of cluster) -> path a = p) ->
    best_path_of self cluster = Return p /\
    _extract_from_cluster self cluster =
    Return
      (flat_map
         (fun a =>
            match Dict.get String.eqb (attrib a) "href"%string with
            | Some href =>
                if (href =? "")%string then []
                else [{| title := text a;
                         url := if String.prefix "//" href
                                then ("http:" ++ href)%string else href |}]
            | None => []
            end)
         (anchors_of cluster)).
Proof.
  intros self cluster p Hne Hpath.
  assert (best_path_of self cluster = Return p) as Hbest.
  { unfold best_path_of, probabilities_of_title_avg.
    rewrite probabilities_flat.
    destruct (anchors_of cluster) as [| a l]; [now elim Hne |].
    cbn [fold_left]. rewrite likelihood_vote, (Hpath a) by now left.
    cbn [Dict.append_to].
    rewrite fold_vote_single_path by (intros b Hb; apply Hpath; now right).
    reflexivity. }
  split; [assumption |].
  unfold _extract_from_cluster. rewrite Hbest. cbn [bind].
  rewrite extract_with_flat_map. f_equal.
  apply flat_map_ext_in. intros a Ha.
  unfold contribution, emit.
  rewrite (Hpath a Ha), String.eqb_refl. cbn [negb].
  destruct (Dict.get String.eqb (attrib a) "href"%string) as [href |];
    [| reflexivity].
  unfold truthy, startswith. rewrite Bool.negb_involutive.
  now destruct (href =? "")%string.
Qed.

Lemma single_path_extracts_every_link_witness :
  best_path_of list_extractor sample_cluster = Return "a"%string.
Proof.
  refine (proj1 (@single_path_extracts_every_link list_extractor
                   sample_cluster "a"%string _ _)).
  - discriminate.
  - intros a Ha. simpl in Ha.
    destruct Ha as [<- | [<- | [<- | []]]]; reflexivity.
Defined.

(** ** The pipeline end to end *)

Lemma cut_tree_empty : cut_tree [] = [].
Proof. reflexivity. Qed.

(** X15. When no descendant of the body passes the filter and the
    clustering of the empty mapping is empty, [process] raises
    [KeyError(0)]: the filter and the cut hand the empty mapping to the
    clustering, and the scorer finds no cluster under 0. *)
Theorem process_no_candidate_raises :
  forall (Html : Type) (preprocess4list : Html -> Html)
         (descendants_of_body : Html -> list Element)
         (cluster_dict : Tree -> Clusters)
         (self : ListExtractor) (element : Html),
    (forall d, In d (descendants_of_body (preprocess4list element)) ->
       passes self d = false) ->
    cluster_dict [] = [] ->
    _build_clusters descendants_of_body cluster_dict self
      (preprocess4list element) = cluster_dict [] /\
    process preprocess4list descendants_of_body cluster_dict self element
      = Raise (KeyError 0).
Proof.
  intros Html pre desc cdict self element Hall Hcd.
  assert (_build_clusters desc cdict self (pre element) = cdict []) as Hb.
  { unfold _build_clusters.
    now rewrite (candidate_tree_rejects_all self _ Hall), cut_tree_empty. }
  split; [assumption |].
  unfold process. now rewrite Hb, Hcd.
Qed.

Lemma process_no_candidate_raises_witness :
  process (fun page : unit => page) (fun _ => [lonely_element])
    (fun tree => map (fun kv => (0%Z, snd kv)) tree) list_extractor tt
  = Raise (KeyError 0).
Proof.
  refine (proj2 (@process_no_candidate_raises unit (fun page => page)
                   (fun _ => [lonely_element])
                   (fun tree => map (fun kv => (0%Z, snd kv)) tree)
                   list_extractor tt _ _)).
  - intros d [<- | []]. reflexivity.
  - reflexivity.
Defined.

(** X16. Whatever the collaborators are, a result that [process] returns is
    the extraction of one of the clusters that the clustering produced, and
    each of its records has the text of an anchor of that cluster as
    [title] and a [url] that is neither empty nor protocol-relative. *)
Theorem process_result_well_formed :
  forall (Html : Type) (preprocess4list : Html -> Html)
         (descendants_of_body : Html -> list Element)
         (cluster_dict : Tree -> Clusters)
         (self : ListExtractor) (element : Html) (result : list Item),
    process preprocess4list descendants_of_body cluster_dict self element
      = Return result ->
    exists cluster_id best_cluster,
      In (cluster_id, best_cluster)
         (_build_clusters descendants_of_body cluster_dict self
            (preprocess4list element)) /\
      _extract_from_cluster self best_cluster = Return result /\
      forall r, In r result ->
        url r <> ""%string /\
        String.prefix "//" (url r) = false /\
        exists a, In a (anchors_of best_cluster) /\ title r = text a.
Proof.
  intros Html pre desc cdict self element result. unfold process.
  set (clusters := _build_clusters desc cdict self (pre element)).
  unfold _choose_best_cluster.
  destruct (Dict.get Z.eqb clusters (clusters_score_arg_max clusters))
    as [best |] eqn:Hget; [| discriminate].
  cbn [bind]. intros Hextract.
  exists (clusters_score_arg_max clusters), best.
  split; [now apply (get_In Z.eqb_spec) |]. split; [assumption |].
  intros r Hr. unfold _extract_from_cluster in Hextract.
  destruct (best_path_of self best) as [best_path | e]; [| discriminate].
  cbn [bind] in Hextract. injection Hextract as <-.
  rewrite extract_with_flat_map in Hr.
  apply in_flat_map in Hr. destruct Hr as (a & Ha & Hr).
  apply contribution_In in Hr. destruct Hr as (href & _ & _ & Hne & ->).
  cbn [url title].
  destruct (String.prefix "//" href) eqn:Hpre.
  - split; [discriminate |]. split; [reflexivity |]. now exists a.
  - split; [assumption |]. split; [assumption |]. now exists a.
Qed.

Lemma process_result_well_formed_witness :
  exists cluster_id best_cluster,
    In (cluster_id, best_cluster) [(0%Z, sample_cluster)] /\
    _extract_from_cluster list_extractor best_cluster = Return sample_result /\
    forall r, In r sample_result ->
      url r <> ""%string /\
      String.prefix "//" (url r) = false /\
      exists a, In a (anchors_of best_cluster) /\ title r = text a.
Proof.
  refine (@process_result_well_formed unit (fun page => page) (fun _ => [])
            (fun _ => [(0%Z, sample_cluster)]) list_extractor tt
            sample_result _).
  unfold process, _build_clusters, _choose_best_cluster,
    clusters_score_arg_max.
  cbn [fold_left]. rewrite choose_step_beats.
  destruct (beats _ _); cbn [fst Dict.get]; exact sample_extraction.
Defined.

(** X17. The extraction reads a cluster through the sequence of its
    anchors only: two clusters with the same anchors in the same order,
    however they are spread over the members and whatever the other fields
    of the members are, give the same result or the same exception. *)
Theorem extraction_reads_anchors_only :
  forall (self : ListExtractor) (cluster cluster' : list Element),
    anchors_of cluster = anchors_of cluster' ->
    _extract_from_cluster self cluster = _extract_from_cluster self cluster'.
Proof.
  intros self cluster cluster' Hsame.
  unfold _extract_from_cluster.
  rewrite (@best_path_of_keys self cluster cluster') by now rewrite Hsame.
  destruct (best_path_of self cluster') as [best_path | e]; [| reflexivity].
  cbn [bind]. now rewrite !extract_with_flat_map, Hsame.
Qed.

Lemma extraction_reads_anchors_only_witness :
  _extract_from_cluster list_extractor sample_cluster =
  _extract_from_cluster list_extractor
    [lonely_element; bare_element; item_under "html>body>ol" sample_anchors].
Proof.
  apply (@extraction_reads_anchors_only list_extractor sample_cluster
           [lonely_element; bare_element;
            item_under "html>body>ol" sample_anchors]).
  reflexivity.
Defined.
